(** * Pico Logger: a model of [pico_logger.h] and its properties

    The header keeps six static variables (the gate, the timer and the log
    store) and talks to the C library: [printf], [perror], [fopen],
    [fprintf], [realloc], [strdup], [clock_gettime], [time], [exit].  The
    static variables are the record [Logger]; what the C library and the
    operating system hold is the record [World]; a C function is a function
    from a [State] to an [outcome].

    What is assumed of the platform:
    - LP64: [size_t] has 64 bits and wraps, a pointer has 8 bytes;
    - the allocator grants no request above [PTRDIFF_MAX] and is free to
      refuse any other; [fopen] is free to refuse a path;
    - the calls whose result the header does not test ([printf], [fprintf],
      [fclose], [clock_gettime], [time], [strftime]) do what they are asked.

    [print_stack_trace] and [dump_memory] only print; they are modelled
    apart, by the text they write. *)

From Stdlib Require Import Ascii.
From Stdlib.Strings Require Import Byte.
From stdpp Require Import base numbers list strings gmap pretty.

Open Scope Z_scope.

(** ** Data *)

(** [typedef enum { ... } DebugLevel;] *)
Inductive DebugLevel : Type :=
| DEBUG_LEVEL_INFO
| DEBUG_LEVEL_WARNING
| DEBUG_LEVEL_ERROR
| DEBUG_LEVEL_CRITICAL.

Global Instance DebugLevel_eq_dec : EqDecision DebugLevel.
Proof. solve_decision. Defined.

(** The integer value of an enumerator. *)
Definition enum_value (level : DebugLevel) : Z :=
  match level with
  | DEBUG_LEVEL_INFO => 0
  | DEBUG_LEVEL_WARNING => 1
  | DEBUG_LEVEL_ERROR => 2
  | DEBUG_LEVEL_CRITICAL => 3
  end.

(** [struct timespec] *)
Record timespec : Type := mk_timespec { tv_sec : Z; tv_nsec : Z }.

(** [typedef struct LogEntry { char *message; } LogEntry;]
    A C string is modelled by its content, the characters before the
    terminating NUL; [None] is a pointer that holds no string (NULL, or the
    indeterminate content of a fresh slot). *)
Record LogEntry : Type := mk_LogEntry { message : option string }.

(** The static variables of the header.  [log_entries] is the block the
    pointer refers to, one element per [LogEntry] slot; NULL is the block
    with no slot. *)
Record Logger : Type := mk_Logger {
  logging_enabled : bool;
  min_log_level : DebugLevel;
  start_time : timespec;
  log_entries : list LogEntry;
  log_capacity : Z;
  log_count : Z
}.

(** What a [printf] of the header puts on standard output.  The elapsed time
    of [log_performance] is a [double]; the record keeps the two integer
    operands [d_sec] and [d_nsec] of [d_sec + d_nsec / 1e9] instead. *)
Inductive display : Type :=
| LogLine (text : string)
| Metrics (label : string) (d_sec d_nsec : Z).

(** The environment: both output streams ([stderr] keeps the text given to
    each [perror]), the file system, the paths [fopen] refuses to open for
    writing, the answers of the allocator to the coming requests ([true]
    grants; with no answer left the request is granted), the monotonic clock
    in nanoseconds, and the local time as [strftime] renders it with
    ["%Y-%m-%d %H:%M:%S"]. *)
Record World : Type := mk_World {
  stdout : list display;
  stderr : list string;
  files : gmap string string;
  unwritable : gset string;
  heap : list bool;
  clock_monotonic : Z;
  local_time : string
}.

Record State : Type := mk_State { logger : Logger; world : World }.

(** The result of running a C function: it returns, or the process ends in
    [exit], or the run leaves what C defines (an access outside the block, a
    read through a pointer that holds no string, a request of zero bytes). *)
Inductive outcome (A : Type) : Type :=
| Returns (a : A) (s : State)
| Exits (status : Z) (s : State)
| Undefined.
Arguments Returns {A} a s.
Arguments Exits {A} status s.
Arguments Undefined {A}.

Definition M (A : Type) : Type := State → outcome A.

Definition ret {A} (a : A) : M A := λ s, Returns a s.

Definition bind {A B} (c : M A) (k : A → M B) : M B := λ s,
  match c s with
  | Returns a s' => k a s'
  | Exits status s' => Exits status s'
  | Undefined => Undefined
  end.

Declare Scope c_scope.
Delimit Scope c_scope with C.
Notation "x <- c ;; k" := (bind c (λ x, k))
  (at level 100, c at next level, k at level 200, right associativity) : c_scope.
Notation "c ;; k" := (bind c (λ _, k))
  (at level 100, k at level 200, right associativity) : c_scope.
Open Scope c_scope.

(** ** Constants of the platform *)

Definition PTRDIFF_MAX : Z := 2 ^ 63 - 1.
Definition EXIT_FAILURE : Z := 1.

(** [sizeof(LogEntry)]: one pointer. *)
Definition sizeof_LogEntry : Z := 8.

(** Arithmetic in [size_t] wraps. *)
Definition size_t (x : Z) : Z := x mod 2 ^ 64.

(** ** Access to the state *)

Definition get_logger : M Logger := λ s, Returns (logger s) s.
Definition get_world : M World := λ s, Returns (world s) s.
Definition put_logger (lg : Logger) : M unit := λ s, Returns tt (mk_State lg (world s)).
Definition put_world (w : World) : M unit := λ s, Returns tt (mk_State (logger s) w).

Definition exit {A} (status : Z) : M A := λ s, Exits status s.
Definition undefined {A} : M A := λ _, Undefined.

Definition set_logging_enabled_field (b : bool) (lg : Logger) : Logger :=
  mk_Logger b (min_log_level lg) (start_time lg) (log_entries lg)
    (log_capacity lg) (log_count lg).
Definition set_min_log_level_field (l : DebugLevel) (lg : Logger) : Logger :=
  mk_Logger (logging_enabled lg) l (start_time lg) (log_entries lg)
    (log_capacity lg) (log_count lg).
Definition set_start_time (t : timespec) (lg : Logger) : Logger :=
  mk_Logger (logging_enabled lg) (min_log_level lg) t (log_entries lg)
    (log_capacity lg) (log_count lg).
Definition set_log_entries (es : list LogEntry) (lg : Logger) : Logger :=
  mk_Logger (logging_enabled lg) (min_log_level lg) (start_time lg) es
    (log_capacity lg) (log_count lg).
Definition set_log_capacity (c : Z) (lg : Logger) : Logger :=
  mk_Logger (logging_enabled lg) (min_log_level lg) (start_time lg)
    (log_entries lg) c (log_count lg).
Definition set_log_count (n : Z) (lg : Logger) : Logger :=
  mk_Logger (logging_enabled lg) (min_log_level lg) (start_time lg)
    (log_entries lg) (log_capacity lg) n.

Definition set_stdout (o : list display) (w : World) : World :=
  mk_World o (stderr w) (files w) (unwritable w) (heap w) (clock_monotonic w)
    (local_time w).
Definition set_stderr (e : list string) (w : World) : World :=
  mk_World (stdout w) e (files w) (unwritable w) (heap w) (clock_monotonic w)
    (local_time w).
Definition set_files (f : gmap string string) (w : World) : World :=
  mk_World (stdout w) (stderr w) f (unwritable w) (heap w) (clock_monotonic w)
    (local_time w).
Definition set_heap (h : list bool) (w : World) : World :=
  mk_World (stdout w) (stderr w) (files w) (unwritable w) h (clock_monotonic w)
    (local_time w).

Definition modify_logger (f : Logger → Logger) : M unit :=
  lg <- get_logger ;; put_logger (f lg).
Definition modify_world (f : World → World) : M unit :=
  w <- get_world ;; put_world (f w).

(** ** The C library *)

(** One [printf] call. *)
Definition printf (d : display) : M unit :=
  modify_world (λ w, set_stdout (stdout w ++ [d]) w).

(** [perror(msg)]: the text after [msg] depends on [errno] and is left out. *)
Definition perror (msg : string) : M unit :=
  modify_world (λ w, set_stderr (stderr w ++ [msg]) w).

(** The allocator answers one request. *)
Definition ask_heap : M bool :=
  w <- get_world ;;
  match heap w with
  | [] => ret true
  | answer :: rest => put_world (set_heap rest w) ;; ret answer
  end.

(** [realloc(block, bytes)]: [None] is NULL.  A granted request gives a block
    of [bytes / sizeof(LogEntry)] slots that keeps the old content in front;
    the new slots hold no string.  A request above [PTRDIFF_MAX] is refused
    without asking; a request of zero bytes has no portable meaning and is
    left undefined. *)
Definition realloc (block : list LogEntry) (bytes : Z) : M (option (list LogEntry)) :=
  if bytes =? 0 then undefined
  else if PTRDIFF_MAX <? bytes then ret None
  else
    granted <- ask_heap ;;
    if granted : bool
    then ret (Some (resize (Z.to_nat (bytes / sizeof_LogEntry)) (mk_LogEntry None) block))
    else ret None.

(** [strdup(s)]: [None] is NULL. *)
Definition strdup (s : string) : M (option string) :=
  granted <- ask_heap ;;
  if granted : bool then ret (Some s) else ret None.

(** ** The log store *)

(** [log_entries[i].message = m] *)
Definition store_message (i : Z) (m : option string) : M unit :=
  lg <- get_logger ;;
  if bool_decide (0 ≤ i < Z.of_nat (length (log_entries lg)))
  then put_logger (set_log_entries (<[Z.to_nat i := mk_LogEntry m]> (log_entries lg)) lg)
  else undefined.

(** [log_entries[i].message], read as a string *)
Definition load_message (i : Z) : M string :=
  lg <- get_logger ;;
  if bool_decide (0 ≤ i < Z.of_nat (length (log_entries lg)))
  then
    match log_entries lg !! Z.to_nat i with
    | Some (mk_LogEntry (Some m)) => ret m
    | _ => undefined
    end
  else undefined.

Definition add_log_entry (log_message : string) : M unit :=
  lg <- get_logger ;;
  (if log_count lg =? log_capacity lg then
     let new_capacity :=
       if log_capacity lg =? 0 then 16 else size_t (log_capacity lg * 2) in
     new_entries <- realloc (log_entries lg) (size_t (new_capacity * sizeof_LogEntry)) ;;
     match new_entries with
     | None =>
         perror "Failed to allocate memory for log entries" ;;
         exit EXIT_FAILURE
     | Some new_entries =>
         modify_logger (set_log_entries new_entries) ;;
         modify_logger (set_log_capacity new_capacity)
     end
   else ret tt) ;;
  copy <- strdup log_message ;;
  lg <- get_logger ;;
  store_message (log_count lg) copy ;;
  (if copy is None then
     perror "Failed to allocate memory for log message" ;;
     exit EXIT_FAILURE
   else ret tt) ;;
  modify_logger (set_log_count (size_t (log_count lg + 1))).

(** [for (size_t i = 0; i < n; i++) body], for a body that changes neither
    [i] nor the bound [n], which is read on entry: the body runs [n] times,
    for [i], [i + 1], ... *)
Fixpoint for_loop (n : nat) (i : Z) (body : Z → M unit) : M unit :=
  match n with
  | O => ret tt
  | S n' => body i ;; for_loop n' (i + 1) body
  end.

(** [free(log_entries[i].message)]: defined for a slot that holds a
    string. *)
Definition free_message (i : Z) : M unit :=
  _ <- load_message i ;; ret tt.

Definition free_log_entries : M unit :=
  lg <- get_logger ;;
  for_loop (Z.to_nat (log_count lg)) 0 free_message ;;
  modify_logger (set_log_entries []) ;;
  modify_logger (set_log_count 0) ;;
  modify_logger (set_log_capacity 0).

(** ** Formatting *)

Definition ESC : string := String "027"%char "".
Definition NL : string := String "010"%char "".

Definition KNRM : string := ESC +:+ "[0m".
Definition KRED : string := ESC +:+ "[31m".
Definition KYEL : string := ESC +:+ "[33m".
Definition KBLU : string := ESC +:+ "[34m".
Definition KMAG : string := ESC +:+ "[35m".

(** The [switch] of [log_message]: [(level_str, color)]. *)
Definition level_style (level : DebugLevel) : string * string :=
  match enum_value level with
  | 0 => ("INFO", KBLU)
  | 1 => ("WARNING", KYEL)
  | 2 => ("ERROR", KRED)
  | 3 => ("CRITICAL", KMAG)
  | _ => ("UNKNOWN", KNRM)
  end.

(** [snprintf(buffer, size, ...)] keeps the first [size - 1] characters. *)
Definition snprintf (size : nat) (s : string) : string :=
  String.substring 0 (size - 1) s.

(** ["[%s] %s%s%s [%s:%d] %s: %s\n"] *)
Definition display_line (time_buffer color level_str file : string) (line : Z)
    (func log_line : string) : string :=
  "[" +:+ time_buffer +:+ "] " +:+ color +:+ level_str +:+ KNRM +:+ " [" +:+ file
    +:+ ":" +:+ pretty line +:+ "] " +:+ func +:+ ": " +:+ log_line +:+ NL.

(** ["[%s] %s [%s:%d] %s: %s"] *)
Definition plain_line (time_buffer level_str file : string) (line : Z)
    (func log_line : string) : string :=
  "[" +:+ time_buffer +:+ "] " +:+ level_str +:+ " [" +:+ file
    +:+ ":" +:+ pretty line +:+ "] " +:+ func +:+ ": " +:+ log_line.

(** ** The public functions *)

(** [text] is what [fmt] and its arguments expand to, before [vsnprintf]
    cuts it to [log_line]. *)
Definition log_message (level : DebugLevel) (file : string) (line : Z)
    (func text : string) : M unit :=
  lg <- get_logger ;;
  if negb (logging_enabled lg) || (enum_value level <? enum_value (min_log_level lg))
  then ret tt
  else
    let '(level_str, color) := level_style level in
    w <- get_world ;;
    let time_buffer := local_time w in
    let log_line := snprintf 512 text in
    printf (LogLine (display_line time_buffer color level_str file line func log_line)) ;;
    let full_log := snprintf 1024 (plain_line time_buffer level_str file line func log_line) in
    add_log_entry full_log.

(** The [struct timespec] for a clock at [ns] nanoseconds. *)
Definition reading (ns : Z) : timespec := mk_timespec (ns / 10 ^ 9) (ns mod 10 ^ 9).

(** [clock_gettime(CLOCK_MONOTONIC, &t)] *)
Definition clock_gettime : M timespec :=
  w <- get_world ;;
  ret (reading (clock_monotonic w)).

(** [__FILE__] inside the header. *)
Definition this_file : string := "pico_logger.h".

(** [LOG_ERROR("Start time not defined.")] at line 166 *)
Definition LOG_ERROR_start_time : M unit :=
  log_message DEBUG_LEVEL_ERROR this_file 166 "log_performance" "Start time not defined.".

(** [message] is [None] for NULL. *)
Definition log_performance (message : option string) : M unit :=
  match message with
  | Some message =>
      lg <- get_logger ;;
      if negb (tv_nsec (start_time lg) =? 0) || negb (tv_sec (start_time lg) =? 0)
      then
        end_ <- clock_gettime ;;
        printf (Metrics message (tv_sec end_ - tv_sec (start_time lg))
                  (tv_nsec end_ - tv_nsec (start_time lg)))
      else LOG_ERROR_start_time
  | None =>
      now <- clock_gettime ;;
      modify_logger (set_start_time now)
  end.

Definition set_logging_enabled (enabled : bool) : M unit :=
  modify_logger (set_logging_enabled_field enabled).

Definition set_minimum_log_level (level : DebugLevel) : M unit :=
  modify_logger (set_min_log_level_field level).

(** [fopen(path, "w")]: [None] is NULL; an opened file is emptied.  The
    stream is named by its path. *)
Definition fopen_w (path : string) : M (option string) :=
  w <- get_world ;;
  if bool_decide (path ∈ unwritable w) then ret None
  else put_world (set_files (<[path := ""]> (files w)) w) ;; ret (Some path).

(** [fprintf(fp, "%s\n", m)] *)
Definition fprintf_line (fp m : string) : M unit :=
  modify_world (λ w,
    set_files (<[fp := default "" (files w !! fp) +:+ m +:+ NL]> (files w)) w).

Definition fclose (fp : string) : M unit := ret tt.

Definition save_log_file (path : string) : M unit :=
  fp <- fopen_w path ;;
  match fp with
  | None => perror "Failed to open log file"
  | Some fp =>
      lg <- get_logger ;;
      for_loop (Z.to_nat (log_count lg)) 0
        (λ i, m <- load_message i ;; fprintf_line fp m) ;;
      fclose fp
  end.

(** ** Runs of a client *)

(** The static variables at program start. *)
Definition initial_logger : Logger :=
  mk_Logger true DEBUG_LEVEL_INFO (mk_timespec 0 0) [] 0 0.

(** The functions a program that includes the header can call. *)
Inductive call : Type :=
| Call_add_log_entry (log_message : string)
| Call_free_log_entries
| Call_log_message (level : DebugLevel) (file : string) (line : Z) (func text : string)
| Call_log_performance (message : option string)
| Call_set_logging_enabled (enabled : bool)
| Call_set_minimum_log_level (level : DebugLevel)
| Call_save_log_file (path : string).

Definition run_call (c : call) : M unit :=
  match c with
  | Call_add_log_entry m => add_log_entry m
  | Call_free_log_entries => free_log_entries
  | Call_log_message level file line func text => log_message level file line func text
  | Call_log_performance message => log_performance message
  | Call_set_logging_enabled enabled => set_logging_enabled enabled
  | Call_set_minimum_log_level level => set_minimum_log_level level
  | Call_save_log_file path => save_log_file path
  end.

(** The states a program can be in: it starts with the initial variables in
    some environment, the environment changes between calls, and calls
    return. *)
Inductive reachable : State → Prop :=
| reachable_start (w : World) : reachable (mk_State initial_logger w)
| reachable_env (lg : Logger) (w w' : World) :
    reachable (mk_State lg w) → reachable (mk_State lg w')
| reachable_call (c : call) (s s' : State) :
    reachable s → run_call c s = Returns tt s' → reachable s'.

(** The texts the store holds, oldest first. *)
Definition stored (lg : Logger) : list string :=
  omap message (take (Z.to_nat (log_count lg)) (log_entries lg)).

(** The invariant of the store. *)
Record store_ok (lg : Logger) : Prop := mk_store_ok {
  count_le_capacity : 0 ≤ log_count lg ≤ log_capacity lg;
  block_slots : Z.of_nat (length (log_entries lg)) = log_capacity lg;
  block_granted : log_capacity lg * sizeof_LogEntry ≤ PTRDIFF_MAX;
  entries_set :
    take (Z.to_nat (log_count lg)) (log_entries lg)
    = (λ m, mk_LogEntry (Some m)) <$> stored lg
}.

(** What [save_log_file] writes for these texts. *)
Fixpoint file_text (texts : list string) : string :=
  match texts with
  | [] => ""
  | m :: rest => m +:+ NL +:+ file_text rest
  end.

(** Appending in a row. *)
Fixpoint add_log_entries (texts : list string) : M unit :=
  match texts with
  | [] => ret tt
  | m :: rest => add_log_entry m ;; add_log_entries rest
  end.

(** An environment to start from: nothing printed, no file, every path
    writable, an allocator that grants, the clock at one nanosecond. *)
Definition initial_world : World := mk_World [] [] ∅ ∅ [] 1 "2025-01-01 00:00:00".

Definition initial_state : State := mk_State initial_logger initial_world.

(** ** What the allocator decides for one append *)

(** The answer of the allocator to the [n]-th coming request. *)
Definition heap_answer (n : nat) (w : World) : bool := default true (heap w !! n).

(** [log_count == log_capacity] *)
Definition must_grow (lg : Logger) : bool := log_count lg =? log_capacity lg.

(** The capacity after a growth without wrap-around: 16 for a block of no
    slot, twice the old capacity otherwise. *)
Definition grown_capacity (lg : Logger) : Z :=
  if log_capacity lg =? 0 then 16 else 2 * log_capacity lg.

(** The store is full and [realloc] returns NULL. *)
Definition growth_refused (s : State) : bool :=
  must_grow (logger s)
  && ((PTRDIFF_MAX <? grown_capacity (logger s) * sizeof_LogEntry)
      || negb (heap_answer 0 (world s))).

(** [strdup] returns NULL. *)
Definition duplication_refused (s : State) : bool :=
  negb (heap_answer (if must_grow (logger s) then 1%nat else 0%nat) (world s)).

(** The state after an append that the allocator grants. *)
Definition appended (m : string) (s : State) : State :=
  let lg := logger s in
  let capacity := if must_grow lg then grown_capacity lg else log_capacity lg in
  let block :=
    if must_grow lg
    then resize (Z.to_nat capacity) (mk_LogEntry None) (log_entries lg)
    else log_entries lg in
  mk_State
    (mk_Logger (logging_enabled lg) (min_log_level lg) (start_time lg)
       (<[Z.to_nat (log_count lg) := mk_LogEntry (Some m)]> block)
       capacity (log_count lg + 1))
    (set_heap (drop (if must_grow lg then 2 else 1) (heap (world s))) (world s)).

(** The final state of a run that stays defined. *)
Definition final_state {A} (o : outcome A) : option State :=
  match o with
  | Returns _ s => Some s
  | Exits _ s => Some s
  | Undefined => None
  end.

(** ** The gate, the timer and calls in a row *)

(** [logging_enabled && level >= min_log_level] *)
Definition gate_open (level : DebugLevel) (lg : Logger) : bool :=
  logging_enabled lg && negb (enum_value level <? enum_value (min_log_level lg)).

(** What a call that passes the gate shows and what it keeps. *)
Definition shown_line (level : DebugLevel) (file : string) (line : Z)
    (func text : string) (w : World) : display :=
  LogLine (display_line (local_time w) (level_style level).2 (level_style level).1
             file line func (snprintf 512 text)).

Definition kept_line (level : DebugLevel) (file : string) (line : Z)
    (func text : string) (w : World) : string :=
  snprintf 1024 (plain_line (local_time w) (level_style level).1
                   file line func (snprintf 512 text)).

(** The state after one [printf]. *)
Definition show (d : display) (s : State) : State :=
  mk_State (logger s) (set_stdout (stdout (world s) ++ [d]) (world s)).

(** [start_time.tv_nsec || start_time.tv_sec] *)
Definition armed (lg : Logger) : bool :=
  negb (tv_nsec (start_time lg) =? 0) || negb (tv_sec (start_time lg) =? 0).

(** The elapsed time [d_sec + d_nsec / 1e9] in nanoseconds, as an exact
    number. *)
Definition time_taken_ns (d_sec d_nsec : Z) : Z := d_sec * 10 ^ 9 + d_nsec.

(** The arguments of one [log_message] call, and calls in a row. *)
Record log_args : Type := mk_log_args {
  arg_level : DebugLevel;
  arg_file : string;
  arg_line : Z;
  arg_func : string;
  arg_text : string
}.

Fixpoint log_messages (calls : list log_args) : M unit :=
  match calls with
  | [] => ret tt
  | a :: rest =>
      log_message (arg_level a) (arg_file a) (arg_line a) (arg_func a) (arg_text a) ;;
      log_messages rest
  end.

(** ** States and environments of the examples *)

(** A state with logging enabled and the minimum level at ERROR, in which
    the allocator refuses the next request. *)
Definition state_ERROR_heap_exhausted : State :=
  mk_State (set_min_log_level_field DEBUG_LEVEL_ERROR initial_logger)
    (set_heap [false] initial_world).

(** Logging enabled, minimum level ERROR, allocator granting. *)
Definition state_ERROR : State :=
  mk_State (set_min_log_level_field DEBUG_LEVEL_ERROR initial_logger) initial_world.

(** Logging disabled, timer never armed. *)
Definition state_disabled : State :=
  mk_State (set_logging_enabled_field false initial_logger) initial_world.

(** An environment in which ["/proc/log"] cannot be opened for writing and
    that holds an older file. *)
Definition world_read_only : World :=
  mk_World [] [] {["/proc/log" := "old"]} {["/proc/log"]} [] 1 "2025-01-01 00:00:00".

(** Two calls made while logging is disabled. *)
Definition calls_while_disabled : list log_args :=
  [mk_log_args DEBUG_LEVEL_INFO "main.c" 10 "main" "starting";
   mk_log_args DEBUG_LEVEL_CRITICAL "main.c" 11 "main" "out of disk"].

(** The timer armed at one nanosecond, the clock at 2.5 seconds. *)
Definition state_armed : State :=
  mk_State (set_start_time (reading 1) initial_logger)
    (mk_World [] [] ∅ ∅ [] 2500000001 "2025-01-01 00:00:02").

(** ** Calls that pass the gate *)


(** The calls that can append to the store. *)
Definition may_append (c : call) : bool :=
  match c with
  | Call_add_log_entry _ | Call_log_message _ _ _ _ _ | Call_log_performance (Some _) => true
  | _ => false
  end.

(** The calls that can print on standard output. *)
Definition may_print (c : call) : bool :=
  match c with
  | Call_log_message _ _ _ _ _ | Call_log_performance (Some _) => true
  | _ => false
  end.

(** ** The debugging aids

    [dump_memory] and [print_stack_trace] only write to standard output and
    touch no static variable.  They are modelled by the text they write;
    [None] is a run that leaves what C defines. *)

(** One hexadecimal digit of ["%02x"]. *)
Definition hex_digit (n : N) : ascii :=
  match n with
  | 0 => "0" | 1 => "1" | 2 => "2" | 3 => "3" | 4 => "4" | 5 => "5" | 6 => "6"
  | 7 => "7" | 8 => "8" | 9 => "9" | 10 => "a" | 11 => "b" | 12 => "c"
  | 13 => "d" | 14 => "e" | _ => "f"
  end%N%char.

(** [printf("%02x ", b)] for an [unsigned char] *)
Definition printf_02x (b : byte) : string :=
  String (hex_digit (Byte.to_N b / 16)) (String (hex_digit (Byte.to_N b mod 16)) " ").

(** The loop of [dump_memory]: [n] rounds from index [i].  [i + 1] stays
    below the bound of the loop and does not wrap. *)
Fixpoint dump_loop (n : nat) (i : Z) (byte_buffer : list byte) : option string :=
  match n with
  | O => Some ""
  | S n' =>
      match byte_buffer !! Z.to_nat i with
      | None => None
      | Some b =>
          match dump_loop n' (i + 1) byte_buffer with
          | None => None
          | Some rest =>
              Some (printf_02x b +:+ (if (i + 1) mod 16 =? 0 then NL else "") +:+ rest)
          end
      end
  end.

(** ["\nMemory dump (%s):\n"] *)
Definition dump_header (label : string) : string :=
  NL +:+ "Memory dump (" +:+ label +:+ "):" +:+ NL.

(** What [dump_memory] writes after its header: the rows of the loop and
    the closing newline of a last row that is not full.  [buffer] is the
    object the pointer refers to; reading behind its end is not defined. *)
Definition dump_body (buffer : list byte) (size : Z) : option string :=
  match dump_loop (Z.to_nat size) 0 buffer with
  | None => None
  | Some rows => Some (rows +:+ (if negb (size mod 16 =? 0) then NL else ""))
  end.

Definition dump_memory (label : string) (buffer : list byte) (size : Z) : option string :=
  match dump_body buffer size with
  | None => None
  | Some body => Some (dump_header label +:+ body)
  end.

(** The value of a hexadecimal digit. *)
Definition hex_value (c : ascii) : option N :=
  (if Ascii.eqb c "0" then Some 0 else if Ascii.eqb c "1" then Some 1
   else if Ascii.eqb c "2" then Some 2 else if Ascii.eqb c "3" then Some 3
   else if Ascii.eqb c "4" then Some 4 else if Ascii.eqb c "5" then Some 5
   else if Ascii.eqb c "6" then Some 6 else if Ascii.eqb c "7" then Some 7
   else if Ascii.eqb c "8" then Some 8 else if Ascii.eqb c "9" then Some 9
   else if Ascii.eqb c "a" then Some 10 else if Ascii.eqb c "b" then Some 11
   else if Ascii.eqb c "c" then Some 12 else if Ascii.eqb c "d" then Some 13
   else if Ascii.eqb c "e" then Some 14 else if Ascii.eqb c "f" then Some 15
   else None)%N%char.

(** Reading a dump back: two digits and a space per byte, newlines skipped. *)
Fixpoint read_dump (text : string) : option (list byte) :=
  match text with
  | EmptyString => Some []
  | String c rest =>
      if Ascii.eqb c "010"%char then read_dump rest
      else
        match rest with
        | String d (String sp rest') =>
            if Ascii.eqb sp " "%char then
              match hex_value c, hex_value d with
              | Some hi, Some lo =>
                  match Byte.of_N (hi * 16 + lo), read_dump rest' with
                  | Some b, Some bytes => Some (b :: bytes)
                  | _, _ => None
                  end
              | _, _ => None
              end
            else None
        | _ => None
        end
  end.

(** The loop of [print_stack_trace]: [symbols] is [None] for NULL. *)
Fixpoint trace_loop (n : nat) (i : Z) (symbols : option (list string)) : option string :=
  match n with
  | O => Some ""
  | S n' =>
      match symbols with
      | None => None
      | Some names =>
          match names !! Z.to_nat i, trace_loop n' (i + 1) symbols with
          | Some name, Some rest => Some (name +:+ NL +:+ rest)
          | _, _ => None
          end
      end
  end.

(** [frames] is the call stack, innermost frame first, each frame as
    [backtrace_symbols] names it; [symbols_granted] tells whether
    [backtrace_symbols] gets the memory for its result. *)
Definition print_stack_trace (frames : list string) (symbols_granted : bool)
    : option string :=
  let size := Z.min (Z.of_nat (length frames)) 10 in
  let symbols := if symbols_granted then Some (take (Z.to_nat size) frames) else None in
  match trace_loop (Z.to_nat size) 0 symbols with
  | None => None
  | Some body => Some (NL +:+ "Stack trace:" +:+ NL +:+ body)
  end.

(** ** Programs *)

(** Calls one after the other. *)
Fixpoint run_calls (calls : list call) : M unit :=
  match calls with
  | [] => ret tt
  | c :: rest => run_call c ;; run_calls rest
  end.

(** ** More states for the examples *)

(** The initial variables with an allocator that refuses the next request,
    and the state in which an append then ends the process. *)
Definition state_heap_exhausted : State :=
  mk_State initial_logger (set_heap [false] initial_world).

Definition state_after_refusal : State :=
  mk_State initial_logger
    (set_stderr ["Failed to allocate memory for log entries"] (set_heap [] initial_world)).

(** * Properties *)

(** ** Arithmetic and list facts *)

Lemma size_t_small (x : Z) : 0 ≤ x < 2 ^ 64 → size_t x = x.
Proof. intros H. unfold size_t. by apply Z.mod_small. Qed.

Lemma stored_length (lg : Logger) :
  store_ok lg → length (stored lg) = Z.to_nat (log_count lg).
Proof.
  intros [Hc Hb _ He].
  apply (f_equal length) in He. rewrite length_fmap in He. rewrite <- He.
  rewrite length_take_le; lia.
Qed.

Lemma lookup_stored (lg : Logger) (i : nat) :
  store_ok lg → (i < Z.to_nat (log_count lg))%nat →
  ∃ m, stored lg !! i = Some m ∧ log_entries lg !! i = Some (mk_LogEntry (Some m)).
Proof.
  intros Hok Hi.
  destruct (lookup_lt_is_Some_2 (stored lg) i) as [m Hm].
  { rewrite stored_length; done. }
  exists m. split; [done|].
  rewrite <- (lookup_take_lt _ (Z.to_nat (log_count lg))) by done.
  rewrite (entries_set _ Hok), list_lookup_fmap, Hm. done.
Qed.

(** Writing one text behind the stored ones, in a block that may have been
    made longer. *)
Lemma stored_block_append (es : list LogEntry) (texts : list string)
    (n N : nat) (m : string) :
  take n es = (λ m, mk_LogEntry (Some m)) <$> texts →
  (n ≤ length es)%nat → (length es ≤ N)%nat → (n < N)%nat →
  take (S n) (<[n := mk_LogEntry (Some m)]> (resize N (mk_LogEntry None) es))
  = (λ m, mk_LogEntry (Some m)) <$> (texts ++ [m]).
Proof.
  intros Htake Hn HN Hlt.
  rewrite (take_S_r _ _ (mk_LogEntry (Some m))).
  2:{ apply list_lookup_insert_eq. rewrite length_resize. done. }
  rewrite take_insert_ge by done.
  rewrite take_resize_le by lia.
  rewrite resize_spec.
  replace (n - length es)%nat with 0%nat by lia.
  cbn. rewrite app_nil_r, Htake, fmap_app. done.
Qed.

Lemma omap_message_Some (texts : list string) :
  omap message ((λ m, mk_LogEntry (Some m)) <$> texts) = texts.
Proof. induction texts as [|m texts IH]; [done|]. cbn. by rewrite IH. Qed.

Lemma string_app_assoc (a b c : string) : (a +:+ b) +:+ c = a +:+ (b +:+ c).
Proof. induction a as [|x a IH]; [done|]. exact (f_equal (String x) IH). Qed.

Lemma string_app_nil_l (a : string) : "" +:+ a = a.
Proof. reflexivity. Qed.

Lemma string_app_nil_r (a : string) : a +:+ "" = a.
Proof. induction a as [|x a IH]; [done|]. exact (f_equal (String x) IH). Qed.

Lemma file_text_app (xs ys : list string) :
  file_text (xs ++ ys) = file_text xs +:+ file_text ys.
Proof.
  induction xs as [|x xs IH]; [done|].
  cbn [app file_text]. by rewrite IH, !string_app_assoc.
Qed.

(** ** Running the code on a state *)

Ltac unfold_c :=
  unfold realloc, strdup, ask_heap, store_message, load_message, printf, perror,
    modify_logger, modify_world, exit, undefined, bind, get_logger, get_world,
    put_world, put_logger, ret in *.

Ltac fields :=
  cbn [logger world log_count log_capacity log_entries heap logging_enabled
       min_log_level start_time set_log_entries set_log_capacity set_log_count
       set_start_time set_logging_enabled_field set_min_log_level_field
       set_heap set_stdout set_stderr set_files
       stdout stderr files unwritable clock_monotonic local_time
       tv_sec tv_nsec message final_state] in *.

(** ** One append *)

Lemma grown_capacity_code (cap : Z) :
  0 ≤ cap → cap * sizeof_LogEntry ≤ PTRDIFF_MAX →
  let G := if cap =? 0 then 16 else 2 * cap in
  (if cap =? 0 then 16 else size_t (cap * 2)) = G
  ∧ size_t (G * sizeof_LogEntry) = G * sizeof_LogEntry
  ∧ (G * sizeof_LogEntry =? 0) = false
  ∧ (G * sizeof_LogEntry) / sizeof_LogEntry = G
  ∧ cap < G.
Proof.
  unfold sizeof_LogEntry, PTRDIFF_MAX. intros H0 H1. cbn zeta.
  destruct (cap =? 0) eqn:E.
  - apply Z.eqb_eq in E. subst. compute. done.
  - apply Z.eqb_neq in E.
    rewrite !size_t_small by lia.
    rewrite Z.div_mul by lia. repeat split; try lia.
Qed.

Lemma add_log_entry_granted (s : State) (m : string) :
  store_ok (logger s) → growth_refused s = false → duplication_refused s = false →
  add_log_entry m s = Returns tt (appended m s).
Proof.
  destruct s as [[en ml st es cap cnt] [out err fs uw hp clk lt]].
  intros [Hc Hb Hg He].
  unfold growth_refused, duplication_refused, appended, must_grow, grown_capacity,
    heap_answer, add_log_entry.
  fields. intros Hgrow Hdup.
  destruct (cnt =? cap) eqn:Hfull.
  - apply Z.eqb_eq in Hfull. subst cnt.
    destruct (grown_capacity_code cap) as (E1 & E2 & E3 & E4 & E5); [lia|done|].
    unfold_c. cbn zeta in *. fields. rewrite E1.
    set (G := if cap =? 0 then 16 else 2 * cap) in *.
    rewrite E2, E3, E4.
    cbn [andb] in Hgrow. apply orb_false_elim in Hgrow as [Hsz Hans].
    rewrite Hsz. fields.
    rewrite Z.eqb_refl.
    assert (Hin : bool_decide
              (0 ≤ cap < Z.of_nat (length (resize (Z.to_nat G) (mk_LogEntry None) es)))
            = true).
    { apply bool_decide_eq_true_2. rewrite length_resize. lia. }
    assert (Hwrap : size_t (cap + 1) = cap + 1).
    { apply size_t_small. unfold sizeof_LogEntry, PTRDIFF_MAX in Hg. lia. }
    destruct hp as [|[] [|[] hp]]; cbn in Hans, Hdup; try done; fields;
      cbn -[Z.to_nat resize Z.of_nat Z.add Z.mul Z.pow G size_t]; rewrite Hin, Hwrap; try done.
  - cbn [andb] in Hgrow. apply Z.eqb_neq in Hfull.
    assert (Hin : bool_decide (0 ≤ cnt < Z.of_nat (length es)) = true).
    { apply bool_decide_eq_true_2. lia. }
    assert (Hwrap : size_t (cnt + 1) = cnt + 1).
    { apply size_t_small. unfold sizeof_LogEntry, PTRDIFF_MAX in Hg. lia. }
    unfold_c. fields. rewrite (proj2 (Z.eqb_neq cnt cap)) by done.
    destruct hp as [|[] hp]; cbn in Hdup; try done; fields;
      cbn -[Z.to_nat Z.of_nat Z.add Z.mul Z.pow size_t]; rewrite Hin, Hwrap; try done.
Qed.

Lemma add_log_entry_growth_refused (s : State) (m : string) :
  store_ok (logger s) → growth_refused s = true →
  ∃ s', add_log_entry m s = Exits EXIT_FAILURE s'
    ∧ logger s' = logger s
    ∧ stdout (world s') = stdout (world s)
    ∧ stderr (world s') = stderr (world s) ++ ["Failed to allocate memory for log entries"]
    ∧ files (world s') = files (world s).
Proof.
  destruct s as [[en ml st es cap cnt] [out err fs uw hp clk lt]].
  intros [Hc Hb Hg He].
  unfold growth_refused, must_grow, grown_capacity, heap_answer, add_log_entry.
  fields. intros Hgrow.
  apply andb_true_iff in Hgrow as [Hfull Hgrow].
  apply Z.eqb_eq in Hfull. subst cnt.
  destruct (grown_capacity_code cap) as (E1 & E2 & E3 & E4 & E5); [lia|done|].
  unfold_c. cbn zeta in *. fields. rewrite E1.
  set (G := if cap =? 0 then 16 else 2 * cap) in *.
  rewrite E2, E3, E4, Z.eqb_refl.
  destruct (PTRDIFF_MAX <? G * sizeof_LogEntry) eqn:Hsz.
  - eexists. split; [reflexivity|]. fields. done.
  - cbn [orb] in Hgrow.
    destruct hp as [|[] hp]; cbn in Hgrow; try done.
    eexists. split; [reflexivity|]. fields. done.
Qed.

Lemma add_log_entry_duplication_refused (s : State) (m : string) :
  store_ok (logger s) → growth_refused s = false → duplication_refused s = true →
  ∃ s', add_log_entry m s = Exits EXIT_FAILURE s'
    ∧ stored (logger s') = stored (logger s)
    ∧ log_count (logger s') = log_count (logger s)
    ∧ stdout (world s') = stdout (world s)
    ∧ stderr (world s') = stderr (world s) ++ ["Failed to allocate memory for log message"]
    ∧ files (world s') = files (world s).
Proof.
  destruct s as [[en ml st es cap cnt] [out err fs uw hp clk lt]].
  intros [Hc Hb Hg He].
  unfold growth_refused, duplication_refused, must_grow, grown_capacity, heap_answer,
    add_log_entry, stored.
  fields. intros Hgrow Hdup.
  destruct (cnt =? cap) eqn:Hfull.
  - apply Z.eqb_eq in Hfull. subst cnt.
    destruct (grown_capacity_code cap) as (E1 & E2 & E3 & E4 & E5); [lia|done|].
    unfold_c. cbn zeta in *. fields. rewrite E1.
    set (G := if cap =? 0 then 16 else 2 * cap) in *.
    rewrite E2, E3, E4, Z.eqb_refl.
    cbn [andb] in Hgrow. apply orb_false_elim in Hgrow as [Hsz Hans].
    rewrite Hsz.
    assert (Hin : bool_decide
              (0 ≤ cap < Z.of_nat (length (resize (Z.to_nat G) (mk_LogEntry None) es)))
            = true).
    { apply bool_decide_eq_true_2. rewrite length_resize. lia. }
    destruct hp as [|[] [|[] hp]]; cbn in Hans, Hdup; try done; fields;
      cbn -[Z.to_nat resize Z.of_nat Z.add Z.mul Z.pow G size_t]; rewrite Hin.
    eexists. split; [reflexivity|]. fields.
    rewrite take_insert_ge by done. rewrite take_resize_le by lia.
    rewrite resize_spec. replace (Z.to_nat cap - length es)%nat with 0%nat by lia.
    cbn. rewrite app_nil_r. done.
  - apply Z.eqb_neq in Hfull.
    assert (Hin : bool_decide (0 ≤ cnt < Z.of_nat (length es)) = true).
    { apply bool_decide_eq_true_2. lia. }
    unfold_c. fields. rewrite (proj2 (Z.eqb_neq cnt cap)) by done.
    destruct hp as [|[] hp]; cbn in Hdup; try done; fields;
      cbn -[Z.to_nat Z.of_nat Z.add Z.mul Z.pow size_t]; rewrite Hin.
    eexists. split; [reflexivity|]. fields.
    rewrite take_insert_ge by done. done.
Qed.

Lemma appended_ok (s : State) (m : string) :
  store_ok (logger s) → growth_refused s = false →
  store_ok (logger (appended m s))
  ∧ stored (logger (appended m s)) = stored (logger s) ++ [m].
Proof.
  destruct s as [[en ml st es cap cnt] w].
  intros Hok Hgrow. pose proof Hok as [Hc Hb Hg He].
  unfold growth_refused, appended, must_grow, grown_capacity in *.
  fields.
  set (cap' := if cnt =? cap then (if cap =? 0 then 16 else 2 * cap) else cap) in *.
  set (es' := if cnt =? cap then resize (Z.to_nat cap') (mk_LogEntry None) es else es).
  assert (Hcap : cnt < cap' ∧ cap ≤ cap' ∧ cap' * sizeof_LogEntry ≤ PTRDIFF_MAX).
  { subst cap'. destruct (cnt =? cap) eqn:Hfull.
    - apply Z.eqb_eq in Hfull. subst cnt. cbn [andb] in Hgrow.
      apply orb_false_elim in Hgrow as [Hsz _]. apply Z.ltb_ge in Hsz.
      destruct (cap =? 0) eqn:E0; [apply Z.eqb_eq in E0|apply Z.eqb_neq in E0]; lia.
    - apply Z.eqb_neq in Hfull. lia. }
  assert (Hes : es' = resize (Z.to_nat cap') (mk_LogEntry None) es).
  { subst es' cap'. destruct (cnt =? cap); [done|]. rewrite resize_all_alt; [done|lia]. }
  rewrite Hes.
  set (block := <[Z.to_nat cnt := mk_LogEntry (Some m)]>
                  (resize (Z.to_nat cap') (mk_LogEntry None) es)).
  assert (Htake : take (Z.to_nat (cnt + 1)) block
          = (λ m, mk_LogEntry (Some m)) <$> (stored (mk_Logger en ml st es cap cnt) ++ [m])).
  { replace (Z.to_nat (cnt + 1)) with (S (Z.to_nat cnt)) by lia.
    apply stored_block_append; [done|lia..]. }
  assert (Hst : stored (mk_Logger en ml st block cap' (cnt + 1))
                = stored (mk_Logger en ml st es cap cnt) ++ [m]).
  { unfold stored at 1. fields. rewrite Htake. apply omap_message_Some. }
  split; [|done].
  split; fields.
  - lia.
  - subst block. rewrite length_insert, length_resize. lia.
  - lia.
  - rewrite Hst. done.
Qed.

(** ** A flush *)

(** The loop of [save_log_file] over slots that hold [texts]. *)
Lemma save_loop_run (fp c : string) (lg : Logger) (texts : list string) :
  ∀ (i : nat) (w : World),
  files w !! fp = Some c →
  (∀ j t, texts !! j = Some t →
          log_entries lg !! (i + j)%nat = Some (mk_LogEntry (Some t))) →
  for_loop (length texts) (Z.of_nat i)
    (λ i, m <- load_message i ;; fprintf_line fp m) (mk_State lg w)
  = Returns tt (mk_State lg (set_files (<[fp := c +:+ file_text texts]> (files w)) w)).
Proof.
  revert c. induction texts as [|t texts IH]; intros c i w Hfp Hslots.
  - cbn. rewrite string_app_nil_r, insert_id by done. by destruct w.
  - cbn [length for_loop file_text].
    pose proof (Hslots 0%nat t eq_refl) as H0. rewrite Nat.add_0_r in H0.
    unfold bind at 1. unfold bind at 1. unfold load_message, bind, get_logger, ret. fields.
    pose proof (lookup_lt_Some _ _ _ H0) as Hlt.
    rewrite bool_decide_eq_true_2 by lia.
    rewrite Nat2Z.id, H0.
    unfold fprintf_line, modify_world, bind, get_world, put_world. fields.
    replace (Z.of_nat i + 1) with (Z.of_nat (S i)) by lia.
    rewrite (IH (c +:+ t +:+ NL)); fields.
    + rewrite Hfp. cbn [default]. rewrite insert_insert_eq.
      rewrite !string_app_assoc. done.
    + rewrite Hfp. apply lookup_insert_eq.
    + intros j t' Hj. rewrite <- (Hslots (S j) t' Hj). f_equal. lia.
Qed.

Lemma save_log_file_opened (path : string) (s : State) :
  store_ok (logger s) → path ∉ unwritable (world s) →
  save_log_file path s
  = Returns tt (mk_State (logger s)
      (set_files (<[path := file_text (stored (logger s))]> (files (world s))) (world s))).
Proof.
  destruct s as [lg w]. intros Hok Hpath. fields.
  unfold save_log_file, fopen_w, fclose, bind, get_world, get_logger, put_world, ret. fields.
  rewrite bool_decide_eq_false_2 by done. fields.
  rewrite <- (stored_length lg Hok).
  rewrite (save_loop_run path "" lg (stored lg) 0%nat); fields.
  - rewrite insert_insert_eq, string_app_nil_l. done.
  - apply lookup_insert_eq.
  - intros j t Hj. cbn [Nat.add].
    destruct (lookup_stored lg j Hok) as (m & Hm & Hslot).
    + rewrite <- stored_length by done. eapply lookup_lt_Some. done.
    + congruence.
Qed.

Lemma save_log_file_refused (path : string) (s : State) :
  path ∈ unwritable (world s) →
  save_log_file path s
  = Returns tt (mk_State (logger s)
      (set_stderr (stderr (world s) ++ ["Failed to open log file"]) (world s))).
Proof.
  destruct s as [lg w]. intros Hpath. fields.
  unfold save_log_file, fopen_w, perror, modify_world, bind, get_world, put_world, ret. fields.
  rewrite bool_decide_eq_true_2 by done. done.
Qed.

(** ** Append and clear on a store that satisfies the invariant *)

Lemma add_log_entry_returns (s s' : State) (m : string) :
  store_ok (logger s) → add_log_entry m s = Returns tt s' →
  growth_refused s = false ∧ duplication_refused s = false ∧ s' = appended m s.
Proof.
  intros Hok Hrun.
  destruct (growth_refused s) eqn:Hgrow.
  { destruct (add_log_entry_growth_refused s m Hok Hgrow) as (x & Hx & _). congruence. }
  destruct (duplication_refused s) eqn:Hdup.
  { destruct (add_log_entry_duplication_refused s m Hok Hgrow Hdup) as (x & Hx & _).
    congruence. }
  rewrite add_log_entry_granted in Hrun by done.
  repeat split; congruence.
Qed.

Lemma store_ok_same_store (lg lg' : Logger) :
  log_entries lg' = log_entries lg → log_capacity lg' = log_capacity lg →
  log_count lg' = log_count lg → store_ok lg → store_ok lg'.
Proof.
  intros He Hc Hn [H1 H2 H3 H4].
  split; unfold stored; rewrite ?He, ?Hc, ?Hn; done.
Qed.

Lemma free_loop_run (lg : Logger) (w : World) (texts : list string) :
  ∀ i : nat,
  (∀ j t, texts !! j = Some t →
          log_entries lg !! (i + j)%nat = Some (mk_LogEntry (Some t))) →
  for_loop (length texts) (Z.of_nat i) free_message (mk_State lg w)
  = Returns tt (mk_State lg w).
Proof.
  induction texts as [|t texts IH]; intros i Hslots; [done|].
  cbn [length for_loop].
  pose proof (Hslots 0%nat t eq_refl) as H0. rewrite Nat.add_0_r in H0.
  unfold bind at 1. unfold free_message at 1, load_message, bind, get_logger, ret. fields.
  pose proof (lookup_lt_Some _ _ _ H0) as Hlt.
  rewrite bool_decide_eq_true_2 by lia.
  rewrite Nat2Z.id, H0.
  replace (Z.of_nat i + 1) with (Z.of_nat (S i)) by lia.
  apply IH. intros j t' Hj. rewrite <- (Hslots (S j) t' Hj). f_equal. lia.
Qed.

Lemma free_log_entries_run (s : State) :
  store_ok (logger s) →
  free_log_entries s
  = Returns tt (mk_State
      (mk_Logger (logging_enabled (logger s)) (min_log_level (logger s))
         (start_time (logger s)) [] 0 0)
      (world s)).
Proof.
  destruct s as [lg w]. intros Hok. fields.
  unfold free_log_entries. unfold bind at 1. unfold get_logger at 1. fields.
  unfold bind at 1.
  rewrite <- (stored_length lg Hok).
  change 0 with (Z.of_nat 0) at 1.
  rewrite (free_loop_run lg w (stored lg) 0%nat).
  - by destruct lg.
  - intros j t Hj. cbn [Nat.add].
    destruct (lookup_stored lg j Hok) as (m & Hm & Hslot).
    + rewrite <- stored_length by done. eapply lookup_lt_Some. done.
    + congruence.
Qed.

(** ** A log call at the gate *)

Lemma log_message_closed level file line func text (s : State) :
  gate_open level (logger s) = false →
  log_message level file line func text s = Returns tt s.
Proof.
  unfold gate_open, log_message, bind, get_logger, ret.
  destruct (logging_enabled (logger s)); cbn [negb andb orb]; [|done].
  destruct (enum_value level <? enum_value (min_log_level (logger s))); done.
Qed.

Lemma log_message_open level file line func text (s : State) :
  gate_open level (logger s) = true →
  log_message level file line func text s
  = add_log_entry (kept_line level file line func text (world s))
      (show (shown_line level file line func text (world s)) s).
Proof.
  unfold gate_open, log_message, bind, get_logger, ret.
  destruct (logging_enabled (logger s)); cbn [negb andb orb]; [|done].
  destruct (enum_value level <? enum_value (min_log_level (logger s))); [done|].
  intros _. unfold shown_line, kept_line, show.
  destruct (level_style level) as [level_str color]. done.
Qed.

(** ** The invariant holds in every state a program reaches *)

Lemma run_call_store_ok (c : call) (s s' : State) :
  store_ok (logger s) → run_call c s = Returns tt s' → store_ok (logger s').
Proof.
  intros Hok. destruct c as [m| |level file line func text|message|b|l|path]; cbn [run_call].
  - intros Hrun. destruct (add_log_entry_returns s s' m Hok Hrun) as (Hg & _ & ->).
    by apply appended_ok.
  - rewrite free_log_entries_run by done. intros [= <-]. fields.
    split; fields; unfold sizeof_LogEntry, PTRDIFF_MAX; done.
  - destruct (gate_open level (logger s)) eqn:Hgate.
    + rewrite log_message_open by done. intros Hrun.
      destruct (add_log_entry_returns (show _ s) s' _ Hok Hrun) as (Hg & _ & ->).
      by apply (appended_ok (show _ s)).
    + rewrite log_message_closed by done. by intros [= <-].
  - destruct message as [message|].
    + unfold log_performance, bind, get_logger.
      destruct (negb _ || negb _).
      * intros [= <-]. done.
      * unfold LOG_ERROR_start_time.
        destruct (gate_open DEBUG_LEVEL_ERROR (logger s)) eqn:Hgate.
        -- rewrite log_message_open by done. intros Hrun.
           destruct (add_log_entry_returns (show _ s) s' _ Hok Hrun) as (Hg & _ & ->).
           by apply (appended_ok (show _ s)).
        -- rewrite log_message_closed by done. by intros [= <-].
    + intros [= <-]. by apply (store_ok_same_store (logger s)).
  - intros [= <-]. by apply (store_ok_same_store (logger s)).
  - intros [= <-]. by apply (store_ok_same_store (logger s)).
  - destruct (decide (path ∈ unwritable (world s))) as [Hin|Hout].
    + rewrite save_log_file_refused by done. by intros [= <-].
    + rewrite save_log_file_opened by done. by intros [= <-].
Qed.

Lemma initial_logger_ok : store_ok initial_logger.
Proof. split; cbn; unfold sizeof_LogEntry, PTRDIFF_MAX; done. Qed.

Lemma reachable_store_ok (s : State) : reachable s → store_ok (logger s).
Proof.
  induction 1 as [w|lg w w' _ IH|c s s' _ IH Hrun].
  - apply initial_logger_ok.
  - exact IH.
  - exact (run_call_store_ok c s s' IH Hrun).
Qed.

(** ** Appending in a row *)

Lemma add_log_entries_returns (texts : list string) :
  ∀ s s' : State,
  store_ok (logger s) → add_log_entries texts s = Returns tt s' →
  store_ok (logger s') ∧ stored (logger s') = stored (logger s) ++ texts.
Proof.
  induction texts as [|m texts IH]; intros s s' Hok Hrun.
  - cbn in Hrun. injection Hrun as <-. by rewrite app_nil_r.
  - cbn [add_log_entries] in Hrun. unfold bind in Hrun.
    destruct (add_log_entry m s) as [[] s1| |] eqn:Hone; try done.
    destruct (add_log_entry_returns s s1 m Hok Hone) as (Hg & _ & ->).
    destruct (appended_ok s m Hok Hg) as [Hok1 Hst1].
    destruct (IH _ _ Hok1 Hrun) as [Hok' Hst'].
    split; [done|]. rewrite Hst', Hst1, <- app_assoc. done.
Qed.

(** With an allocator that grants every request, appends return as long as
    the store stays below [2 ^ 59] entries. *)
Lemma add_log_entries_granted (texts : list string) :
  ∀ s : State,
  store_ok (logger s) → heap (world s) = [] →
  log_count (logger s) + Z.of_nat (length texts) ≤ 2 ^ 59 →
  ∃ s', add_log_entries texts s = Returns tt s' ∧ heap (world s') = [].
Proof.
  induction texts as [|m texts IH]; intros s Hok Hheap Hsize.
  - exists s. done.
  - cbn [add_log_entries length] in *. unfold bind.
    assert (Hg : growth_refused s = false).
    { unfold growth_refused, heap_answer, must_grow, grown_capacity. rewrite Hheap.
      destruct (log_count (logger s) =? log_capacity (logger s)) eqn:Hfull; [|done].
      apply Z.eqb_eq in Hfull. cbn. rewrite orb_false_r. apply Z.ltb_ge.
      unfold PTRDIFF_MAX, sizeof_LogEntry.
      destruct (log_capacity (logger s) =? 0); lia. }
    assert (Hd : duplication_refused s = false).
    { unfold duplication_refused, heap_answer. rewrite Hheap. by destruct (must_grow _). }
    rewrite add_log_entry_granted by done.
    destruct (appended_ok s m Hok Hg) as [Hok1 _].
    apply IH; [done| |].
    + unfold appended. fields. rewrite Hheap. by destruct (must_grow _).
    + unfold appended. fields. lia.
Qed.

(** ** What a log call and a timer call leave behind *)

Lemma log_message_open_ends level file line func text (s : State) :
  store_ok (logger s) → gate_open level (logger s) = true →
  ∃ s', final_state (log_message level file line func text s) = Some s'
    ∧ stdout (world s')
      = stdout (world s) ++ [shown_line level file line func text (world s)]
    ∧ (growth_refused s = false ∧ duplication_refused s = false →
         log_message level file line func text s = Returns tt s'
         ∧ stored (logger s')
           = stored (logger s) ++ [kept_line level file line func text (world s)]
         ∧ log_count (logger s') = log_count (logger s) + 1)
    ∧ (growth_refused s = true ∨ duplication_refused s = true →
         log_message level file line func text s = Exits EXIT_FAILURE s'
         ∧ stored (logger s') = stored (logger s)
         ∧ log_count (logger s') = log_count (logger s)).
Proof.
  intros Hok Hgate. rewrite log_message_open by done.
  set (d := shown_line level file line func text (world s)).
  set (k := kept_line level file line func text (world s)).
  assert (Hok' : store_ok (logger (show d s))) by done.
  change (growth_refused s) with (growth_refused (show d s)).
  change (duplication_refused s) with (duplication_refused (show d s)).
  destruct (growth_refused (show d s)) eqn:Hg.
  - destruct (add_log_entry_growth_refused (show d s) k Hok' Hg)
      as (s' & Hrun & Hlg & Hout & _).
    exists s'. rewrite Hrun. split; [done|]. split; [done|].
    split; [intros [? _]; done|]. intros _. rewrite Hlg. done.
  - destruct (duplication_refused (show d s)) eqn:Hd.
    + destruct (add_log_entry_duplication_refused (show d s) k Hok' Hg Hd)
        as (s' & Hrun & Hst & Hn & Hout & _).
      exists s'. rewrite Hrun. split; [done|]. split; [done|].
      split; [intros [_ ?]; done|]. intros _. done.
    + exists (appended k (show d s)).
      rewrite add_log_entry_granted by done. split; [done|]. split; [done|].
      split; [|intros [?|?]; done]. intros _.
      split; [done|]. split; [|done].
      apply (appended_ok (show d s) k Hok' Hg).
Qed.

Lemma log_performance_arm (s : State) :
  log_performance None s
  = Returns tt (mk_State (set_start_time (reading (clock_monotonic (world s))) (logger s))
                  (world s)).
Proof. reflexivity. Qed.

Lemma log_performance_report_armed (label : string) (s : State) :
  armed (logger s) = true →
  log_performance (Some label) s
  = Returns tt
      (show (Metrics label
               (tv_sec (reading (clock_monotonic (world s))) - tv_sec (start_time (logger s)))
               (tv_nsec (reading (clock_monotonic (world s))) - tv_nsec (start_time (logger s))))
         s).
Proof.
  unfold armed, log_performance, bind, get_logger. intros ->. reflexivity.
Qed.

Lemma log_performance_report_unarmed (label : string) (s : State) :
  armed (logger s) = false →
  log_performance (Some label) s = LOG_ERROR_start_time s.
Proof.
  unfold armed, log_performance, bind, get_logger. intros ->. reflexivity.
Qed.

Lemma reading_armed (ns : Z) (lg : Logger) :
  ns ≠ 0 → armed (set_start_time (reading ns) lg) = true.
Proof.
  intros Hns. unfold armed, reading. fields.
  destruct (ns mod 10 ^ 9 =? 0) eqn:Hn; [|done].
  destruct (ns / 10 ^ 9 =? 0) eqn:Hs; [|done].
  apply Z.eqb_eq in Hn, Hs.
  pose proof (Z.div_mod ns (10 ^ 9)). lia.
Qed.

Lemma reading_elapsed (t0 t1 : Z) :
  time_taken_ns (tv_sec (reading t1) - tv_sec (reading t0))
    (tv_nsec (reading t1) - tv_nsec (reading t0)) = t1 - t0.
Proof.
  unfold time_taken_ns, reading. fields.
  pose proof (Z.div_mod t0 (10 ^ 9)). pose proof (Z.div_mod t1 (10 ^ 9)). lia.
Qed.

Lemma log_messages_disabled (calls : list log_args) (s : State) :
  logging_enabled (logger s) = false → log_messages calls s = Returns tt s.
Proof.
  intros Hoff. induction calls as [|a calls IH]; [done|].
  cbn [log_messages]. unfold bind.
  rewrite log_message_closed; [done|].
  unfold gate_open. by rewrite Hoff.
Qed.

(** ** No undefined behaviour *)

Lemma add_log_entry_defined (s : State) (m : string) :
  store_ok (logger s) → add_log_entry m s ≠ Undefined.
Proof.
  intros Hok Hrun.
  destruct (growth_refused s) eqn:Hg.
  { destruct (add_log_entry_growth_refused s m Hok Hg) as (x & Hx & _). congruence. }
  destruct (duplication_refused s) eqn:Hd.
  { destruct (add_log_entry_duplication_refused s m Hok Hg Hd) as (x & Hx & _).
    congruence. }
  rewrite add_log_entry_granted in Hrun by done. done.
Qed.

Lemma log_message_defined level file line func text (s : State) :
  store_ok (logger s) → log_message level file line func text s ≠ Undefined.
Proof.
  intros Hok.
  destruct (gate_open level (logger s)) eqn:Hgate.
  - rewrite log_message_open by done. by apply (add_log_entry_defined (show _ s)).
  - by rewrite log_message_closed.
Qed.

(** No call from a reachable state leaves what C defines: every access to
    the block stays inside it and every string read is one that was stored. *)
Lemma run_call_defined (c : call) (s : State) :
  reachable s → run_call c s ≠ Undefined.
Proof.
  intros Hreach. pose proof (reachable_store_ok s Hreach) as Hok.
  destruct c as [m| |level file line func text|message|b|l|path]; cbn [run_call].
  - by apply add_log_entry_defined.
  - by rewrite free_log_entries_run.
  - by apply log_message_defined.
  - destruct message as [message|]; [|done].
    destruct (armed (logger s)) eqn:Harmed.
    + by rewrite log_performance_report_armed.
    + rewrite log_performance_report_unarmed by done. by apply log_message_defined.
  - done.
  - done.
  - destruct (decide (path ∈ unwritable (world s))) as [Hin|Hout].
    + by rewrite save_log_file_refused.
    + by rewrite save_log_file_opened.
Qed.

(** * The claims *)

(** C1: after the texts [texts] have been appended to the empty store, a
    flush to a path that opens returns and leaves in the file exactly
    [length texts] lines, a line being what one [fprintf] writes: the texts
    in the order of the appends, each followed by a newline.  The environment
    may have changed between the appends and the flush. *)
Theorem flush_writes_the_appended_lines (s0 s : State) (texts : list string)
    (path : string) (w : World) :
  reachable s0 → log_count (logger s0) = 0 →
  add_log_entries texts s0 = Returns tt s →
  path ∉ unwritable w →
  ∃ s', save_log_file path (mk_State (logger s) w) = Returns tt s'
    ∧ files (world s') !! path = Some (file_text texts)
    ∧ stored (logger s) = texts
    ∧ log_count (logger s) = Z.of_nat (length texts).
Proof.
  intros Hreach Hempty Hrun Hpath.
  pose proof (reachable_store_ok s0 Hreach) as Hok0.
  destruct (add_log_entries_returns texts s0 s Hok0 Hrun) as [Hok Hst].
  assert (Hnil : stored (logger s0) = []).
  { unfold stored. rewrite Hempty. done. }
  rewrite Hnil in Hst. cbn [app] in Hst.
  eexists. split; [apply (save_log_file_opened path (mk_State (logger s) w)); done|].
  fields. rewrite lookup_insert_eq, Hst. split; [done|]. split; [done|].
  pose proof (stored_length (logger s) Hok) as Hlen. rewrite Hst in Hlen.
  pose proof (count_le_capacity _ Hok). lia.
Qed.

Lemma flush_writes_the_appended_lines_witness :
  ∃ s', save_log_file "P"
          (mk_State (logger (appended "C" (appended "B" (appended "A" initial_state))))
             initial_world) = Returns tt s'
    ∧ files (world s') !! "P" = Some (file_text ["A"; "B"; "C"])
    ∧ stored (logger (appended "C" (appended "B" (appended "A" initial_state))))
      = ["A"; "B"; "C"]
    ∧ log_count (logger (appended "C" (appended "B" (appended "A" initial_state))))
      = Z.of_nat (length ["A"; "B"; "C"]).
Proof.
  apply (flush_writes_the_appended_lines initial_state _ ["A"; "B"; "C"] "P" initial_world).
  - apply reachable_start.
  - reflexivity.
  - vm_compute. reflexivity.
  - apply not_elem_of_empty.
Defined.

(** C2: in every state a program reaches, and so after every append, flush
    and clear, the capacity is at least the count; an append that finds the
    store full and returns leaves the capacity at 16 when it was 0 and at
    twice the old capacity otherwise. *)
Theorem capacity_covers_count_and_doubles (s : State) :
  reachable s →
  log_count (logger s) ≤ log_capacity (logger s)
  ∧ (∀ c s', run_call c s = Returns tt s' →
       log_count (logger s') ≤ log_capacity (logger s'))
  ∧ (∀ m s', log_count (logger s) = log_capacity (logger s) →
       add_log_entry m s = Returns tt s' →
       log_capacity (logger s')
       = if log_capacity (logger s) =? 0 then 16 else 2 * log_capacity (logger s)).
Proof.
  intros Hreach. pose proof (reachable_store_ok s Hreach) as Hok.
  split; [apply (count_le_capacity _ Hok)|]. split.
  - intros c s' Hrun.
    apply (count_le_capacity _ (run_call_store_ok c s s' Hok Hrun)).
  - intros m s' Hfull Hrun.
    destruct (add_log_entry_returns s s' m Hok Hrun) as (_ & _ & ->).
    unfold appended, must_grow, grown_capacity. fields.
    rewrite (proj2 (Z.eqb_eq _ _) Hfull). done.
Qed.

Lemma capacity_covers_count_and_doubles_witness :
  log_count (logger initial_state) ≤ log_capacity (logger initial_state)
  ∧ log_count (logger (appended "A" initial_state))
    ≤ log_capacity (logger (appended "A" initial_state))
  ∧ log_capacity (logger (appended "A" initial_state)) = 16.
Proof.
  destruct (capacity_covers_count_and_doubles initial_state (reachable_start initial_world))
    as (Hle & Hcall & Hgrow).
  split; [exact Hle|]. split.
  - exact (Hcall (Call_add_log_entry "A") (appended "A" initial_state) eq_refl).
  - exact (Hgrow "A" (appended "A" initial_state) eq_refl eq_refl).
Defined.

(** The capacity goes from 0 to 16 at the first append and from 16 to 32 at
    the seventeenth. *)
Example capacity_after_17_appends :
  (λ n, (λ s, (log_count (logger s), log_capacity (logger s)))
          <$> final_state (add_log_entries (replicate n "x") initial_state))
    <$> [0; 1; 16; 17]%nat
  = [Some (0, 0); Some (1, 16); Some (16, 16); Some (17, 32)].
Proof. vm_compute. reflexivity. Qed.

(** C3, as stated, fails: with logging enabled and the minimum level at
    ERROR, a call at level ERROR whose allocation is refused shows its line
    and ends the process; the store gains no entry. *)
Lemma level_gate_allocation_counterexample :
  logging_enabled (logger state_ERROR_heap_exhausted) = true
  ∧ min_log_level (logger state_ERROR_heap_exhausted) = DEBUG_LEVEL_ERROR
  ∧ reachable state_ERROR_heap_exhausted
  ∧ ∃ s', log_message DEBUG_LEVEL_ERROR "main.c" 42 "main" "disk full"
            state_ERROR_heap_exhausted = Exits EXIT_FAILURE s'
      ∧ length (stdout (world s')) = 1%nat
      ∧ log_count (logger s') = 0
      ∧ stored (logger s') = [].
Proof.
  split; [reflexivity|]. split; [reflexivity|]. split.
  - apply (reachable_env _ initial_world).
    apply (reachable_call (Call_set_minimum_log_level DEBUG_LEVEL_ERROR) initial_state).
    + apply reachable_start.
    + reflexivity.
  - eexists. split; [vm_compute; reflexivity|]. vm_compute. done.
Qed.

(** C3, amended: with logging enabled and the minimum level at ERROR, a call
    at level INFO or WARNING returns and changes nothing, so no entry is
    appended and nothing is shown.  A call at level ERROR or CRITICAL shows
    exactly one line; when the allocator grants what the append asks, the
    call returns and the store holds exactly one more entry; when it does
    not, the process ends after the line is shown and the stored texts are
    as they were. *)
Theorem level_gate_at_ERROR (s : State) (level : DebugLevel) (file : string)
    (line : Z) (func text : string) :
  reachable s →
  logging_enabled (logger s) = true →
  min_log_level (logger s) = DEBUG_LEVEL_ERROR →
  (level = DEBUG_LEVEL_INFO ∨ level = DEBUG_LEVEL_WARNING →
     log_message level file line func text s = Returns tt s)
  ∧ (level = DEBUG_LEVEL_ERROR ∨ level = DEBUG_LEVEL_CRITICAL →
     ∃ s', final_state (log_message level file line func text s) = Some s'
       ∧ stdout (world s')
         = stdout (world s) ++ [shown_line level file line func text (world s)]
       ∧ (growth_refused s = false ∧ duplication_refused s = false →
            log_message level file line func text s = Returns tt s'
            ∧ stored (logger s')
              = stored (logger s) ++ [kept_line level file line func text (world s)]
            ∧ log_count (logger s') = log_count (logger s) + 1)
       ∧ (growth_refused s = true ∨ duplication_refused s = true →
            log_message level file line func text s = Exits EXIT_FAILURE s'
            ∧ stored (logger s') = stored (logger s)
            ∧ log_count (logger s') = log_count (logger s))).
Proof.
  intros Hreach Hon Hmin. pose proof (reachable_store_ok s Hreach) as Hok.
  split.
  - intros Hlow. apply log_message_closed.
    unfold gate_open. rewrite Hon, Hmin. by destruct Hlow as [-> | ->].
  - intros Hhigh. apply log_message_open_ends; [done|].
    unfold gate_open. rewrite Hon, Hmin. by destruct Hhigh as [-> | ->].
Qed.

Lemma reachable_state_ERROR : reachable state_ERROR.
Proof.
  apply (reachable_call (Call_set_minimum_log_level DEBUG_LEVEL_ERROR) initial_state).
  - apply reachable_start.
  - reflexivity.
Qed.

Lemma level_gate_at_ERROR_witness :
  log_message DEBUG_LEVEL_WARNING "main.c" 41 "main" "disk nearly full" state_ERROR
  = Returns tt state_ERROR
  ∧ ∃ s', log_message DEBUG_LEVEL_CRITICAL "main.c" 42 "main" "disk full" state_ERROR
          = Returns tt s'
      ∧ stdout (world s')
        = stdout (world state_ERROR)
          ++ [shown_line DEBUG_LEVEL_CRITICAL "main.c" 42 "main" "disk full"
                (world state_ERROR)]
      ∧ stored (logger s')
        = stored (logger state_ERROR)
          ++ [kept_line DEBUG_LEVEL_CRITICAL "main.c" 42 "main" "disk full"
                (world state_ERROR)]
      ∧ log_count (logger s') = log_count (logger state_ERROR) + 1.
Proof.
  split.
  - apply (proj1 (level_gate_at_ERROR state_ERROR DEBUG_LEVEL_WARNING "main.c" 41 "main"
                    "disk nearly full" reachable_state_ERROR eq_refl eq_refl)).
    right. reflexivity.
  - destruct (proj2 (level_gate_at_ERROR state_ERROR DEBUG_LEVEL_CRITICAL "main.c" 42 "main"
                       "disk full" reachable_state_ERROR eq_refl eq_refl)
                (or_intror eq_refl)) as (s' & _ & Hout & Hgranted & _).
    destruct (Hgranted (conj eq_refl eq_refl)) as (Hrun & Hstored & Hcount).
    exists s'. repeat split; assumption.
Defined.

(** What the four levels do at minimum level ERROR, with an allocator that
    grants: (entries stored, lines shown). *)
Example level_gate_at_ERROR_runs :
  (λ level, (λ s, (log_count (logger s), length (stdout (world s))))
      <$> final_state (log_message level "main.c" 42 "main" "disk full" state_ERROR))
    <$> [DEBUG_LEVEL_INFO; DEBUG_LEVEL_WARNING; DEBUG_LEVEL_ERROR; DEBUG_LEVEL_CRITICAL]
  = [Some (0, 0%nat); Some (0, 0%nat); Some (1, 1%nat); Some (1, 1%nat)].
Proof. vm_compute. reflexivity. Qed.

(** C4: an append in a reachable state has three possible ends.  When the
    allocator grants what is asked, it returns and the store holds exactly
    one more entry, the given text, behind the old ones.  When the growth of
    the block is refused, or the copy of the text is refused, the failure is
    reported on the error stream and the process ends at once in
    [exit(EXIT_FAILURE)], with the stored texts as they were. *)
Theorem append_succeeds_or_terminates (s : State) (m : string) :
  reachable s →
  (growth_refused s = false → duplication_refused s = false →
     ∃ s', add_log_entry m s = Returns tt s'
       ∧ stored (logger s') = stored (logger s) ++ [m]
       ∧ log_count (logger s') = log_count (logger s) + 1
       ∧ stderr (world s') = stderr (world s))
  ∧ (growth_refused s = true →
     ∃ s', add_log_entry m s = Exits EXIT_FAILURE s'
       ∧ logger s' = logger s
       ∧ stderr (world s')
         = stderr (world s) ++ ["Failed to allocate memory for log entries"])
  ∧ (growth_refused s = false → duplication_refused s = true →
     ∃ s', add_log_entry m s = Exits EXIT_FAILURE s'
       ∧ stored (logger s') = stored (logger s)
       ∧ log_count (logger s') = log_count (logger s)
       ∧ stderr (world s')
         = stderr (world s) ++ ["Failed to allocate memory for log message"]).
Proof.
  intros Hreach. pose proof (reachable_store_ok s Hreach) as Hok.
  split; [|split].
  - intros Hg Hd. exists (appended m s).
    split; [by apply add_log_entry_granted|].
    split; [by apply appended_ok|]. done.
  - intros Hg.
    destruct (add_log_entry_growth_refused s m Hok Hg) as (s' & Hrun & Hlg & _ & Herr & _).
    by exists s'.
  - intros Hg Hd.
    destruct (add_log_entry_duplication_refused s m Hok Hg Hd)
      as (s' & Hrun & Hst & Hn & _ & Herr & _).
    by exists s'.
Qed.

Lemma append_succeeds_or_terminates_witness :
  (∃ s', add_log_entry "A" initial_state = Returns tt s'
     ∧ stored (logger s') = stored (logger initial_state) ++ ["A"]
     ∧ log_count (logger s') = log_count (logger initial_state) + 1
     ∧ stderr (world s') = stderr (world initial_state))
  ∧ (∃ s', add_log_entry "A" (mk_State initial_logger (set_heap [false] initial_world))
           = Exits EXIT_FAILURE s'
     ∧ logger s' = initial_logger
     ∧ stderr (world s') = [] ++ ["Failed to allocate memory for log entries"])
  ∧ (∃ s', add_log_entry "A" (mk_State initial_logger (set_heap [true; false] initial_world))
           = Exits EXIT_FAILURE s'
     ∧ stored (logger s') = stored initial_logger
     ∧ log_count (logger s') = 0
     ∧ stderr (world s') = [] ++ ["Failed to allocate memory for log message"]).
Proof.
  split; [|split].
  - exact (proj1 (append_succeeds_or_terminates initial_state "A"
                    (reachable_start initial_world)) eq_refl eq_refl).
  - exact (proj1 (proj2 (append_succeeds_or_terminates
                           (mk_State initial_logger (set_heap [false] initial_world)) "A"
                           (reachable_start _))) eq_refl).
  - exact (proj2 (proj2 (append_succeeds_or_terminates
                           (mk_State initial_logger (set_heap [true; false] initial_world)) "A"
                           (reachable_start _))) eq_refl eq_refl).
Defined.

Lemma reachable_state_disabled : reachable state_disabled.
Proof.
  apply (reachable_call (Call_set_logging_enabled false) initial_state).
  - apply reachable_start.
  - reflexivity.
Qed.

(** C5, as stated, fails: with logging disabled, a report on a timer that was
    never armed returns without any output and without any stored entry, so
    no ERROR-level message is produced. *)
Lemma unarmed_report_counterexample :
  reachable state_disabled
  ∧ start_time (logger state_disabled) = mk_timespec 0 0
  ∧ log_performance (Some "job") state_disabled = Returns tt state_disabled
  ∧ stdout (world state_disabled) = []
  ∧ stored (logger state_disabled) = [].
Proof.
  split; [exact reachable_state_disabled|]. repeat split; reflexivity.
Qed.

(** C5, amended: arming at a clock reading other than zero and reporting
    later, with no arming in between, shows the elapsed time, and that time
    is not negative: the difference of the seconds is not negative, the
    difference of the nanoseconds lies strictly between minus and plus one
    second, and their exact sum is not negative.  A report on a timer that
    is not armed never shows an elapsed time: when the gate lets level ERROR
    pass (logging enabled and minimum level at most ERROR) it shows exactly
    one line, the ERROR-level message, and otherwise it returns and changes
    nothing. *)
Theorem timer_protocol (s : State) (label : string) :
  reachable s →
  (∀ s2 : State,
     clock_monotonic (world s) ≠ 0 →
     start_time (logger s2) = reading (clock_monotonic (world s)) →
     clock_monotonic (world s) ≤ clock_monotonic (world s2) →
     ∃ s1 d_sec d_nsec,
       log_performance None s = Returns tt s1
       ∧ start_time (logger s1) = reading (clock_monotonic (world s))
       ∧ log_performance (Some label) s2
         = Returns tt (show (Metrics label d_sec d_nsec) s2)
       ∧ 0 ≤ d_sec ∧ - 10 ^ 9 < d_nsec < 10 ^ 9
       ∧ 0 ≤ time_taken_ns d_sec d_nsec)
  ∧ (armed (logger s) = false →
     ∃ s', final_state (log_performance (Some label) s) = Some s'
       ∧ if gate_open DEBUG_LEVEL_ERROR (logger s)
         then stdout (world s')
              = stdout (world s)
                ++ [shown_line DEBUG_LEVEL_ERROR this_file 166 "log_performance"
                      "Start time not defined." (world s)]
         else log_performance (Some label) s = Returns tt s ∧ s' = s).
Proof.
  intros Hreach. pose proof (reachable_store_ok s Hreach) as Hok. split.
  - intros s2 Hclock Hstart Hlater.
    eexists _, _, _. split; [apply log_performance_arm|]. split; [reflexivity|].
    split.
    + apply log_performance_report_armed.
      destruct s2 as [lg2 w2]. fields.
      pose proof (reading_armed (clock_monotonic (world s)) lg2 Hclock) as Harmed.
      unfold armed in *. fields. rewrite Hstart. exact Harmed.
    + rewrite Hstart, reading_elapsed. unfold reading. fields.
      pose proof (Z.div_le_mono _ _ (10 ^ 9) ltac:(lia) Hlater).
      pose proof (Z.mod_pos_bound (clock_monotonic (world s)) (10 ^ 9) ltac:(lia)).
      pose proof (Z.mod_pos_bound (clock_monotonic (world s2)) (10 ^ 9) ltac:(lia)).
      lia.
  - intros Hunarmed. rewrite log_performance_report_unarmed by done.
    unfold LOG_ERROR_start_time.
    destruct (gate_open DEBUG_LEVEL_ERROR (logger s)) eqn:Hgate.
    + destruct (log_message_open_ends DEBUG_LEVEL_ERROR this_file 166 "log_performance"
                  "Start time not defined." s Hok Hgate) as (s' & Hfin & Hout & _).
      by exists s'.
    + rewrite log_message_closed by done. by exists s.
Qed.

Lemma timer_protocol_witness :
  (∃ s1 d_sec d_nsec,
     log_performance None initial_state = Returns tt s1
     ∧ start_time (logger s1) = reading (clock_monotonic (world initial_state))
     ∧ log_performance (Some "job") state_armed
       = Returns tt (show (Metrics "job" d_sec d_nsec) state_armed)
     ∧ 0 ≤ d_sec ∧ - 10 ^ 9 < d_nsec < 10 ^ 9
     ∧ 0 ≤ time_taken_ns d_sec d_nsec)
  ∧ ∃ s', final_state (log_performance (Some "job") initial_state) = Some s'
      ∧ if gate_open DEBUG_LEVEL_ERROR (logger initial_state)
        then stdout (world s')
             = stdout (world initial_state)
               ++ [shown_line DEBUG_LEVEL_ERROR this_file 166 "log_performance"
                     "Start time not defined." (world initial_state)]
        else log_performance (Some "job") initial_state = Returns tt initial_state
             ∧ s' = initial_state.
Proof.
  split.
  - apply (proj1 (timer_protocol initial_state "job" (reachable_start initial_world))
             state_armed).
    + discriminate.
    + reflexivity.
    + discriminate.
  - apply (proj2 (timer_protocol initial_state "job" (reachable_start initial_world))).
    reflexivity.
Defined.

(** Arming at one nanosecond and reporting 2.5 seconds later, and a report
    with no arming before it. *)
Example timer_runs :
  (stdout ∘ world <$> final_state
     ((log_performance None ;; (λ s, Returns tt (mk_State (logger s)
          (mk_World [] [] ∅ ∅ [] 2500000001 "2025-01-01 00:00:02"))) ;;
       log_performance (Some "job")) initial_state)
   = Some [Metrics "job" 2 500000000])
  ∧ (stdout ∘ world <$> final_state (log_performance (Some "job") initial_state)
     = Some [LogLine ("[2025-01-01 00:00:00] " +:+ KRED +:+ "ERROR" +:+ KNRM
                      +:+ " [pico_logger.h:166] log_performance: Start time not defined."
                      +:+ NL)]).
Proof. vm_compute. split; reflexivity. Qed.

(** The code takes a [start_time] of zero for a timer that is not armed: a
    timer armed while the clock reads zero is reported as not armed. *)
Example arming_at_reading_zero :
  stdout ∘ world <$> final_state
     ((log_performance None ;; (λ s, Returns tt (mk_State (logger s)
          (mk_World [] [] ∅ ∅ [] 2500000000 "2025-01-01 00:00:02"))) ;;
       log_performance (Some "job"))
        (mk_State initial_logger (mk_World [] [] ∅ ∅ [] 0 "2025-01-01 00:00:00")))
  = Some [shown_line DEBUG_LEVEL_ERROR this_file 166 "log_performance"
            "Start time not defined."
            (mk_World [] [] ∅ ∅ [] 2500000000 "2025-01-01 00:00:02")].
Proof. vm_compute. reflexivity. Qed.

(** C6: when the path cannot be opened for writing, [save_log_file] reports
    the failure on the error stream, returns, and leaves every file, the
    standard output and all static variables, the store among them, as they
    were. *)
Theorem flush_open_failure (s : State) (path : string) :
  path ∈ unwritable (world s) →
  ∃ s', save_log_file path s = Returns tt s'
    ∧ stderr (world s') = stderr (world s) ++ ["Failed to open log file"]
    ∧ files (world s') = files (world s)
    ∧ stdout (world s') = stdout (world s)
    ∧ logger s' = logger s.
Proof.
  intros Hpath. eexists. split; [by apply save_log_file_refused|]. done.
Qed.

Lemma flush_open_failure_witness :
  ∃ s', save_log_file "/proc/log" (mk_State initial_logger world_read_only) = Returns tt s'
    ∧ stderr (world s')
      = stderr (world (mk_State initial_logger world_read_only))
        ++ ["Failed to open log file"]
    ∧ files (world s') = files (world (mk_State initial_logger world_read_only))
    ∧ stdout (world s') = stdout (world (mk_State initial_logger world_read_only))
    ∧ logger s' = logger (mk_State initial_logger world_read_only).
Proof.
  apply (flush_open_failure (mk_State initial_logger world_read_only) "/proc/log").
  vm_compute. reflexivity.
Defined.

(** C7: while logging is disabled, a log call at any level returns and
    changes nothing: no entry is appended and nothing is shown.  Disabling,
    making any calls, and enabling again leaves the stored entries, the
    minimum level and both output streams as they were; when logging was
    enabled before, the state is the one before, so later calls pass the gate
    exactly as they did. *)
Theorem disabled_logging_is_silent (s : State) (calls : list log_args) :
  (logging_enabled (logger s) = false →
     ∀ level file line func text,
       log_message level file line func text s = Returns tt s)
  ∧ ∃ s', (set_logging_enabled false ;; log_messages calls ;;
           set_logging_enabled true) s = Returns tt s'
      ∧ log_entries (logger s') = log_entries (logger s)
      ∧ log_count (logger s') = log_count (logger s)
      ∧ log_capacity (logger s') = log_capacity (logger s)
      ∧ min_log_level (logger s') = min_log_level (logger s)
      ∧ world s' = world s
      ∧ (∀ level, gate_open level (logger s')
                  = negb (enum_value level <? enum_value (min_log_level (logger s))))
      ∧ (logging_enabled (logger s) = true → s' = s).
Proof.
  split.
  - intros Hoff level file line func text. apply log_message_closed.
    unfold gate_open. by rewrite Hoff.
  - unfold bind at 1. unfold set_logging_enabled at 1, modify_logger, bind, get_logger, put_logger.
    rewrite log_messages_disabled by done.
    eexists. split; [reflexivity|]. fields.
    repeat split; try done.
    destruct s as [[en ml st es cap cnt] w]. fields. by intros ->.
Qed.

Lemma disabled_logging_is_silent_witness :
  logging_enabled (logger state_disabled) = false
  ∧ ∀ level file line func text,
      log_message level file line func text state_disabled = Returns tt state_disabled.
Proof.
  split; [reflexivity|].
  apply (proj1 (disabled_logging_is_silent state_disabled calls_while_disabled)).
  reflexivity.
Defined.

(** Two calls while disabled leave no trace; the same call that was answered
    before disabling is answered the same way after enabling again. *)
Example disabled_then_enabled_runs :
  (set_logging_enabled false ;; log_messages calls_while_disabled ;;
   set_logging_enabled true ;;
   log_message DEBUG_LEVEL_WARNING "main.c" 12 "main" "back") initial_state
  = log_message DEBUG_LEVEL_WARNING "main.c" 12 "main" "back" initial_state.
Proof. vm_compute. reflexivity. Qed.

(** C8: in a reachable state a flush returns, whether or not the path opens,
    and leaves all static variables as they were: count, capacity and every
    entry.  When an append follows and returns, a second flush to a path that
    opens writes all the texts stored before the first flush and then the new
    one: what a flush before the append writes, followed by the new line. *)
Theorem flush_keeps_the_store (s : State) (path : string) :
  reachable s →
  ∃ s1, save_log_file path s = Returns tt s1
    ∧ logger s1 = logger s
    ∧ ∀ (m : string) (s2 : State) (path2 : string) (w2 : World),
        add_log_entry m s1 = Returns tt s2 →
        path2 ∉ unwritable w2 →
        ∃ s3, save_log_file path2 (mk_State (logger s2) w2) = Returns tt s3
          ∧ logger s3 = logger s2
          ∧ files (world s3) !! path2 = Some (file_text (stored (logger s) ++ [m]))
          ∧ file_text (stored (logger s) ++ [m])
            = file_text (stored (logger s)) +:+ m +:+ NL.
Proof.
  intros Hreach. pose proof (reachable_store_ok s Hreach) as Hok.
  assert (Hflush : ∃ s1, save_log_file path s = Returns tt s1 ∧ logger s1 = logger s).
  { destruct (decide (path ∈ unwritable (world s))) as [Hin|Hout].
    - eexists. split; [by apply save_log_file_refused|done].
    - eexists. split; [by apply save_log_file_opened|done]. }
  destruct Hflush as (s1 & Hrun1 & Hlg1).
  exists s1. split; [done|]. split; [done|].
  intros m s2 path2 w2 Hadd Hpath2.
  assert (Hok1 : store_ok (logger s1)) by (by rewrite Hlg1).
  destruct (add_log_entry_returns s1 s2 m Hok1 Hadd) as (Hg & _ & ->).
  destruct (appended_ok s1 m Hok1 Hg) as [Hok2 Hst2].
  eexists. split.
  { apply (save_log_file_opened path2 (mk_State (logger (appended m s1)) w2)); done. }
  split; [done|]. fields.
  rewrite lookup_insert_eq, Hst2, Hlg1. split; [done|].
  rewrite file_text_app. cbn [file_text]. by rewrite string_app_nil_r.
Qed.

Lemma flush_keeps_the_store_witness :
  ∃ s1, save_log_file "P" (appended "A" initial_state) = Returns tt s1
    ∧ logger s1 = logger (appended "A" initial_state)
    ∧ ∀ (m : string) (s2 : State) (path2 : string) (w2 : World),
        add_log_entry m s1 = Returns tt s2 →
        path2 ∉ unwritable w2 →
        ∃ s3, save_log_file path2 (mk_State (logger s2) w2) = Returns tt s3
          ∧ logger s3 = logger s2
          ∧ files (world s3) !! path2
            = Some (file_text (stored (logger (appended "A" initial_state)) ++ [m]))
          ∧ file_text (stored (logger (appended "A" initial_state)) ++ [m])
            = file_text (stored (logger (appended "A" initial_state))) +:+ m +:+ NL.
Proof.
  apply (flush_keeps_the_store (appended "A" initial_state) "P").
  apply (reachable_call (Call_add_log_entry "A") initial_state).
  - apply reachable_start.
  - vm_compute. reflexivity.
Defined.

(** Append, flush, append, flush: the second file holds both lines. *)
Example flush_append_flush_runs :
  (λ s, (files (world s) !! "P", files (world s) !! "Q", log_count (logger s)))
    <$> final_state ((add_log_entry "A" ;; save_log_file "P" ;;
                      add_log_entry "B" ;; save_log_file "Q") initial_state)
  = Some (Some ("A" +:+ NL), Some ("A" +:+ NL +:+ "B" +:+ NL), 2).
Proof. vm_compute. reflexivity. Qed.

(** C9: two flushes in a row to the same path both return and leave the
    same files: when the path opens, the file holds the stored texts, each
    followed by a newline, after the first flush and after the second; when
    it does not open, neither flush writes.  The content depends on the
    stored texts only: a flush from any reachable state that stores the same
    texts, in any environment in which the path opens, writes the same
    content. *)
Theorem flush_twice_same_content (s : State) (path : string) :
  reachable s →
  ∃ s1 s2,
    save_log_file path s = Returns tt s1
    ∧ save_log_file path s1 = Returns tt s2
    ∧ files (world s2) = files (world s1)
    ∧ (path ∉ unwritable (world s) →
       files (world s1) !! path = Some (file_text (stored (logger s)))
       ∧ ∀ s' s1' : State,
           reachable s' → stored (logger s') = stored (logger s) →
           path ∉ unwritable (world s') →
           save_log_file path s' = Returns tt s1' →
           files (world s1') !! path = files (world s1) !! path).
Proof.
  intros Hreach. pose proof (reachable_store_ok s Hreach) as Hok.
  destruct (decide (path ∈ unwritable (world s))) as [Hin|Hout].
  - eexists _, _. split; [by apply save_log_file_refused|].
    split; [by apply save_log_file_refused|]. split; [done|]. done.
  - eexists _, _. split; [by apply save_log_file_opened|].
    split; [by apply save_log_file_opened|]. fields.
    split; [by rewrite insert_insert_eq|]. intros _.
    rewrite lookup_insert_eq. split; [done|].
    intros s' s1' Hreach' Hsame Hpath' Hrun'.
    rewrite save_log_file_opened in Hrun'; [|by apply reachable_store_ok|done].
    injection Hrun' as <-. fields. rewrite lookup_insert_eq, Hsame. done.
Qed.

Lemma flush_twice_same_content_witness :
  ∃ s1 s2,
    save_log_file "P" (appended "A" initial_state) = Returns tt s1
    ∧ save_log_file "P" s1 = Returns tt s2
    ∧ files (world s2) = files (world s1)
    ∧ ("P" ∉ unwritable (world (appended "A" initial_state)) →
       files (world s1) !! "P"
       = Some (file_text (stored (logger (appended "A" initial_state))))
       ∧ ∀ s' s1' : State,
           reachable s' →
           stored (logger s') = stored (logger (appended "A" initial_state)) →
           "P" ∉ unwritable (world s') →
           save_log_file "P" s' = Returns tt s1' →
           files (world s1') !! "P" = files (world s1) !! "P").
Proof.
  apply (flush_twice_same_content (appended "A" initial_state) "P").
  apply (reachable_call (Call_add_log_entry "A") initial_state).
  - apply reachable_start.
  - vm_compute. reflexivity.
Defined.

(** Two flushes in a row, and a flush after the gate and the timer have been
    touched, write the same file. *)
Example flush_twice_runs :
  (λ c, (λ s, files (world s) !! "P")
      <$> final_state ((add_log_entries ["A"; "B"] ;; c) initial_state))
    <$> [save_log_file "P";
         save_log_file "P" ;; save_log_file "P";
         save_log_file "P" ;; set_logging_enabled false ;; log_performance None ;;
         save_log_file "P"]
  = replicate 3 (Some (Some ("A" +:+ NL +:+ "B" +:+ NL))).
Proof. vm_compute. reflexivity. Qed.

(** C10: with the timer armed, a report shows the elapsed time whatever the
    enabled flag and the minimum level have been set to: the call returns,
    the line shown is the same for every setting, and nothing else is
    shown. *)
Theorem report_ignores_the_gate (s : State) (label : string) (enabled : bool)
    (level : DebugLevel) :
  armed (logger s) = true →
  ∃ s', (set_logging_enabled enabled ;; set_minimum_log_level level ;;
         log_performance (Some label)) s = Returns tt s'
    ∧ stdout (world s')
      = stdout (world s)
        ++ [Metrics label
              (tv_sec (reading (clock_monotonic (world s))) - tv_sec (start_time (logger s)))
              (tv_nsec (reading (clock_monotonic (world s))) - tv_nsec (start_time (logger s)))].
Proof.
  intros Harmed.
  unfold bind at 1. unfold set_logging_enabled at 1, modify_logger, bind at 1.
  unfold get_logger at 1, put_logger at 1.
  unfold bind at 1. unfold set_minimum_log_level at 1, modify_logger, bind at 1.
  unfold get_logger at 1, put_logger at 1. fields.
  rewrite log_performance_report_armed by done.
  eexists. split; [reflexivity|]. done.
Qed.

Lemma report_ignores_the_gate_witness :
  ∃ s', (set_logging_enabled false ;; set_minimum_log_level DEBUG_LEVEL_CRITICAL ;;
         log_performance (Some "job")) state_armed = Returns tt s'
    ∧ stdout (world s')
      = stdout (world state_armed)
        ++ [Metrics "job"
              (tv_sec (reading (clock_monotonic (world state_armed)))
               - tv_sec (start_time (logger state_armed)))
              (tv_nsec (reading (clock_monotonic (world state_armed)))
               - tv_nsec (start_time (logger state_armed)))].
Proof.
  apply (report_ignores_the_gate state_armed "job" false DEBUG_LEVEL_CRITICAL).
  reflexivity.
Defined.

(** * Further properties *)

(** ** Facts on strings *)

Lemma string_length_app (a b : string) :
  String.length (a +:+ b) = (String.length a + String.length b)%nat.
Proof.
  induction a as [|x a IH]; [done|].
  change (S (String.length (a +:+ b)) = S (String.length a + String.length b)).
  by rewrite IH.
Qed.

Lemma substring_0_length (n : nat) (s : string) :
  String.length (String.substring 0 n s) = Nat.min n (String.length s).
Proof.
  revert s. induction n as [|n IH]; intros [|x s]; try done.
  change (S (String.length (String.substring 0 n s)) = S (Nat.min n (String.length s))).
  by rewrite IH.
Qed.

Lemma substring_0_all (n : nat) (s : string) :
  (String.length s ≤ n)%nat → String.substring 0 n s = s.
Proof.
  revert s. induction n as [|n IH]; intros [|x s] Hlen; try done.
  - cbn in Hlen. lia.
  - change (String x (String.substring 0 n s) = String x s).
    rewrite IH; [done|]. cbn in Hlen. lia.
Qed.

Lemma substring_0_prefix (n : nat) (s : string) :
  ∃ rest, s = String.substring 0 n s +:+ rest.
Proof.
  revert s. induction n as [|n IH]; intros [|x s].
  - by exists "".
  - by exists (String x s).
  - by exists "".
  - destruct (IH s) as [rest Hrest]. exists rest.
    change (String x s = String x (String.substring 0 n s +:+ rest)).
    by rewrite <- Hrest.
Qed.

(** ** The loop of [dump_memory] *)

Lemma dump_loop_is_Some (buf : list byte) (n : nat) :
  ∀ i : nat,
  is_Some (dump_loop n (Z.of_nat i) buf) ↔ n = 0%nat ∨ (i + n ≤ length buf)%nat.
Proof.
  induction n as [|n IH]; intros i.
  - cbn. split; [by left|by eexists].
  - cbn [dump_loop]. rewrite Nat2Z.id.
    replace (Z.of_nat i + 1) with (Z.of_nat (S i)) by lia.
    destruct (buf !! i) as [b|] eqn:Hb.
    + apply lookup_lt_Some in Hb.
      destruct (dump_loop n (Z.of_nat (S i)) buf) as [rest|] eqn:Hrest.
      * split; [|by eexists]. intros _. right.
        destruct (proj1 (IH (S i))) as [->|]; [by rewrite Hrest|lia|lia].
      * split; [by intros [? [=]]|]. intros [[=]|Hle].
        assert (is_Some (dump_loop n (Z.of_nat (S i)) buf)) as [? Hsome].
        { apply IH. right. lia. }
        congruence.
    + apply lookup_ge_None in Hb. split; [by intros [? [=]]|].
      intros [[=]|]. lia.
Qed.

Lemma dump_loop_take (buf : list byte) (n : nat) :
  ∀ i : nat,
  dump_loop n (Z.of_nat i) (take (i + n) buf) = dump_loop n (Z.of_nat i) buf.
Proof.
  induction n as [|n IH]; intros i; [done|].
  cbn [dump_loop]. rewrite Nat2Z.id.
  replace (Z.of_nat i + 1) with (Z.of_nat (S i)) by lia.
  rewrite lookup_take_lt by lia.
  replace (i + S n)%nat with (S i + n)%nat by lia.
  by rewrite IH.
Qed.

Lemma dump_loop_split (buf : list byte) (n m : nat) :
  ∀ i : nat,
  dump_loop (n + m) (Z.of_nat i) buf
  = match dump_loop n (Z.of_nat i) buf, dump_loop m (Z.of_nat (i + n)) buf with
    | Some front, Some back => Some (front +:+ back)
    | _, _ => None
    end.
Proof.
  induction n as [|n IH]; intros i.
  - cbn [dump_loop Nat.add]. rewrite Nat.add_0_r.
    by destruct (dump_loop m (Z.of_nat i) buf).
  - cbn [dump_loop Nat.add]. rewrite Nat2Z.id.
    replace (Z.of_nat i + 1) with (Z.of_nat (S i)) by lia.
    destruct (buf !! i) as [b|]; [|done].
    rewrite IH. replace (S i + n)%nat with (i + S n)%nat by lia.
    destruct (dump_loop n (Z.of_nat (S i)) buf) as [front|]; [|done].
    destruct (dump_loop m (Z.of_nat (i + S n)) buf) as [back|]; [|done].
    by rewrite !string_app_assoc.
Qed.

Lemma dump_loop_shift (pre buf : list byte) (n : nat) :
  Z.of_nat (length pre) mod 16 = 0 →
  ∀ i : nat,
  dump_loop n (Z.of_nat (length pre + i)) (pre ++ buf) = dump_loop n (Z.of_nat i) buf.
Proof.
  intros Hpre. induction n as [|n IH]; intros i; [done|].
  cbn [dump_loop]. rewrite !Nat2Z.id.
  rewrite lookup_app_r by lia.
  replace (length pre + i - length pre)%nat with i by lia.
  replace (Z.of_nat (length pre + i) + 1) with (Z.of_nat (length pre + S i)) by lia.
  replace (Z.of_nat i + 1) with (Z.of_nat (S i)) by lia.
  rewrite IH.
  replace (Z.of_nat (length pre + S i) mod 16) with (Z.of_nat (S i) mod 16); [done|].
  rewrite Nat2Z.inj_add, Z.add_mod, Hpre, Z.add_0_l, Z.mod_mod by lia. done.
Qed.

Lemma dump_loop_length (buf : list byte) (n : nat) :
  ∀ (i : nat) (rows : string),
  dump_loop n (Z.of_nat i) buf = Some rows →
  Z.of_nat (String.length rows)
  = 3 * Z.of_nat n + (Z.of_nat (i + n) / 16 - Z.of_nat i / 16).
Proof.
  induction n as [|n IH]; intros i rows.
  - cbn. intros [= <-]. rewrite Nat.add_0_r. cbn. lia.
  - cbn [dump_loop]. rewrite Nat2Z.id.
    replace (Z.of_nat i + 1) with (Z.of_nat (S i)) by lia.
    destruct (buf !! i) as [b|]; [|done].
    destruct (dump_loop n (Z.of_nat (S i)) buf) as [rest|] eqn:Hrest; [|done].
    intros [= <-]. specialize (IH (S i) rest Hrest).
    rewrite !string_length_app. replace (S i + n)%nat with (i + S n)%nat in IH by lia.
    change (String.length (printf_02x b)) with 3%nat.
    destruct (Z.of_nat (S i) mod 16 =? 0) eqn:Hrow.
    + apply Z.eqb_eq in Hrow. change (String.length NL) with 1%nat.
      assert (Z.of_nat (S i) / 16 = Z.of_nat i / 16 + 1) by (Z.div_mod_to_equations; lia).
      lia.
    + apply Z.eqb_neq in Hrow. change (String.length "") with 0%nat.
      assert (Z.of_nat (S i) / 16 = Z.of_nat i / 16) by (Z.div_mod_to_equations; lia).
      lia.
Qed.

Lemma read_printf_02x (b : byte) (rest : string) :
  read_dump (printf_02x b +:+ rest)
  = match read_dump rest with Some bytes => Some (b :: bytes) | None => None end.
Proof. destruct b; reflexivity. Qed.

Lemma read_dump_NL (rest : string) : read_dump (NL +:+ rest) = read_dump rest.
Proof. reflexivity. Qed.

Lemma dump_loop_read (buf : list byte) (n : nat) :
  ∀ (i : nat) (rows tail : string),
  dump_loop n (Z.of_nat i) buf = Some rows →
  read_dump (rows +:+ tail)
  = match read_dump tail with
    | Some bytes => Some (take n (drop i buf) ++ bytes)
    | None => None
    end.
Proof.
  induction n as [|n IH]; intros i rows tail.
  - cbn [dump_loop]. intros [= <-]. rewrite string_app_nil_l.
    by destruct (read_dump tail).
  - cbn [dump_loop]. rewrite Nat2Z.id.
    replace (Z.of_nat i + 1) with (Z.of_nat (S i)) by lia.
    destruct (buf !! i) as [b|] eqn:Hb; [|done].
    destruct (dump_loop n (Z.of_nat (S i)) buf) as [rest|] eqn:Hrest; [|done].
    intros [= <-]. rewrite !string_app_assoc, read_printf_02x.
    assert (Hskip : read_dump ((if Z.of_nat (S i) mod 16 =? 0 then NL else "")
                               +:+ rest +:+ tail) = read_dump (rest +:+ tail)).
    { by destruct (Z.of_nat (S i) mod 16 =? 0). }
    rewrite Hskip, (IH (S i) rest tail Hrest).
    destruct (read_dump tail) as [bytes|]; [|done].
    rewrite (drop_S _ _ _ Hb). done.
Qed.

(** ** [dump_memory] *)

(** X1: [dump_memory] reads exactly the first [size] bytes of the buffer: it
    is defined exactly when the buffer holds at least [size] bytes, and what
    it writes does not depend on the bytes behind them. *)
Theorem dump_memory_reads_size_bytes (label : string) (buffer : list byte) (size : Z) :
  0 ≤ size →
  (is_Some (dump_memory label buffer size) ↔ size ≤ Z.of_nat (length buffer))
  ∧ dump_memory label (take (Z.to_nat size) buffer) size = dump_memory label buffer size.
Proof.
  intros Hsize. unfold dump_memory, dump_body. split.
  - pose proof (dump_loop_is_Some buffer (Z.to_nat size) 0%nat) as Hsome.
    change (Z.of_nat 0) with 0 in Hsome.
    destruct (dump_loop (Z.to_nat size) 0 buffer) as [rows|].
    + split; [|by eexists]. intros _.
      destruct (proj1 Hsome) as [H0|Hle]; [by eexists|lia|lia].
    + split; [by intros [? [=]]|]. intros Hle.
      destruct (proj2 Hsome) as [? [=]]. right. lia.
  - pose proof (dump_loop_take buffer (Z.to_nat size) 0%nat) as Htake.
    change (Z.of_nat 0) with 0 in Htake. cbn [Nat.add] in Htake.
    by rewrite Htake.
Qed.

Lemma dump_memory_reads_size_bytes_witness :
  (is_Some (dump_memory "b" [x01; x02; x03]%byte 2)
   ↔ 2 ≤ Z.of_nat (length [x01; x02; x03]%byte))
  ∧ dump_memory "b" (take (Z.to_nat 2) [x01; x02; x03]%byte) 2
    = dump_memory "b" [x01; x02; x03]%byte 2.
Proof.
  apply (dump_memory_reads_size_bytes "b" [x01; x02; x03]%byte 2). discriminate.
Defined.

(** X2: a dump of [size] bytes has the header, three characters per byte and
    one newline per row of sixteen bytes, the last row counted also when it
    is not full; a dump of no byte is the header alone. *)
Theorem dump_memory_length (label : string) (buffer : list byte) (size : Z) (text : string) :
  0 ≤ size →
  dump_memory label buffer size = Some text →
  Z.of_nat (String.length text)
  = Z.of_nat (String.length (dump_header label)) + 3 * size + (size + 15) / 16
  ∧ Z.of_nat (String.length (dump_header label)) = 17 + Z.of_nat (String.length label)
  ∧ (size = 0 → text = dump_header label).
Proof.
  intros Hsize. unfold dump_memory, dump_body.
  destruct (dump_loop (Z.to_nat size) 0 buffer) as [rows|] eqn:Hrows; [|done].
  intros [= <-].
  split; [|split].
  - pose proof (dump_loop_length buffer (Z.to_nat size) 0%nat rows Hrows) as Hlen.
    cbn [Nat.add] in Hlen. rewrite Z2Nat.id in Hlen by done.
    change (Z.of_nat 0 / 16) with 0 in Hlen.
    rewrite !string_length_app, !Nat2Z.inj_add, Hlen.
    destruct (size mod 16 =? 0) eqn:Hfull; cbn [negb].
    + apply Z.eqb_eq in Hfull. change (String.length "") with 0%nat.
      Z.div_mod_to_equations. lia.
    + apply Z.eqb_neq in Hfull. change (String.length NL) with 1%nat.
      Z.div_mod_to_equations. lia.
  - unfold dump_header. rewrite !string_length_app.
    change (String.length NL) with 1%nat.
    change (String.length "Memory dump (") with 13%nat.
    change (String.length "):") with 2%nat. lia.
  - intros ->. cbn in Hrows. injection Hrows as <-. cbn [negb Z.modulo].
    change (0 mod 16 =? 0) with true. cbn [negb].
    by rewrite string_app_nil_l, string_app_nil_r.
Qed.

Lemma dump_memory_length_witness :
  Z.of_nat (String.length (NL +:+ "Memory dump (b):" +:+ NL +:+ "01 00 00 00 ff " +:+ NL))
  = Z.of_nat (String.length (dump_header "b")) + 3 * 5 + (5 + 15) / 16
  ∧ Z.of_nat (String.length (dump_header "b")) = 17 + Z.of_nat (String.length "b")
  ∧ (5 = 0 → NL +:+ "Memory dump (b):" +:+ NL +:+ "01 00 00 00 ff " +:+ NL
             = dump_header "b").
Proof.
  apply (dump_memory_length "b" [x01; x00; x00; x00; xff]%byte 5).
  - discriminate.
  - reflexivity.
Defined.

(** X3: a dump loses nothing: what follows the header reads back, two digits
    and a space per byte and newlines skipped, as the [size] bytes that were
    dumped. *)
Theorem dump_memory_reads_back (label : string) (buffer : list byte) (size : Z)
    (text : string) :
  0 ≤ size →
  dump_memory label buffer size = Some text →
  ∃ body, text = dump_header label +:+ body
    ∧ dump_body buffer size = Some body
    ∧ read_dump body = Some (take (Z.to_nat size) buffer).
Proof.
  intros Hsize. unfold dump_memory.
  destruct (dump_body buffer size) as [body|] eqn:Hbody; [|done].
  intros [= <-]. exists body. split; [done|]. split; [done|].
  unfold dump_body in Hbody.
  destruct (dump_loop (Z.to_nat size) 0 buffer) as [rows|] eqn:Hrows; [|done].
  injection Hbody as <-.
  rewrite (dump_loop_read buffer (Z.to_nat size) 0%nat rows _ Hrows).
  assert (Htail : read_dump (if negb (size mod 16 =? 0) then NL else "") = Some []).
  { by destruct (size mod 16 =? 0). }
  rewrite Htail, app_nil_r. done.
Qed.

Lemma dump_memory_reads_back_witness :
  ∃ body, NL +:+ "Memory dump (b):" +:+ NL +:+ "01 00 00 00 ff " +:+ NL
          = dump_header "b" +:+ body
    ∧ dump_body [x01; x00; x00; x00; xff]%byte 5 = Some body
    ∧ read_dump body = Some (take (Z.to_nat 5) [x01; x00; x00; x00; xff]%byte).
Proof.
  apply (dump_memory_reads_back "b" [x01; x00; x00; x00; xff]%byte 5).
  - discriminate.
  - reflexivity.
Defined.

(** X4: rows are aligned to sixteen bytes from the start of the buffer, so
    the dump of a buffer whose front part is a whole number of rows is the
    dump of the front part followed by the dump of the rest. *)
Theorem dump_body_rows_concatenate (front rest : list byte) :
  Z.of_nat (length front) mod 16 = 0 →
  ∃ text_front text_rest,
    dump_body front (Z.of_nat (length front)) = Some text_front
    ∧ dump_body rest (Z.of_nat (length rest)) = Some text_rest
    ∧ dump_body (front ++ rest) (Z.of_nat (length (front ++ rest)))
      = Some (text_front +:+ text_rest).
Proof.
  intros Hrows. unfold dump_body. rewrite !Nat2Z.id, length_app.
  assert (Hsome : ∀ l : list byte, is_Some (dump_loop (length l) 0 l)).
  { intros l. apply (dump_loop_is_Some l (length l) 0%nat). right. lia. }
  destruct (Hsome front) as [rows_front Hfront].
  destruct (Hsome rest) as [rows_rest Hrest].
  pose proof (dump_loop_split (front ++ rest) (length front) (length rest) 0%nat) as Hsplit.
  change (Z.of_nat 0) with 0 in Hsplit. cbn [Nat.add] in Hsplit.
  pose proof (dump_loop_take (front ++ rest) (length front) 0%nat) as Htake.
  change (Z.of_nat 0) with 0 in Htake. cbn [Nat.add] in Htake.
  rewrite take_app_length in Htake. rewrite <- Htake, Hfront in Hsplit.
  pose proof (dump_loop_shift front rest (length rest) Hrows 0%nat) as Hshift.
  rewrite Nat.add_0_r in Hshift. change (Z.of_nat 0) with 0 in Hshift.
  rewrite Hshift, Hrest in Hsplit.
  rewrite Hfront, Hrest, Hsplit.
  exists (rows_front +:+ ""),
    (rows_rest +:+ (if negb (Z.of_nat (length rest) mod 16 =? 0) then NL else "")).
  rewrite Hrows. change (0 =? 0) with true. cbn [negb].
  split; [done|]. split; [done|].
  rewrite string_app_nil_r, string_app_assoc.
  replace (Z.of_nat (length front + length rest) mod 16)
    with (Z.of_nat (length rest) mod 16); [done|].
  rewrite Nat2Z.inj_add, Z.add_mod, Hrows, Z.add_0_l, Z.mod_mod by lia. done.
Qed.

Lemma dump_body_rows_concatenate_witness :
  ∃ text_front text_rest,
    dump_body (replicate 16 x00%byte) (Z.of_nat (length (replicate 16 x00%byte)))
    = Some text_front
    ∧ dump_body [xff]%byte (Z.of_nat (length [xff]%byte)) = Some text_rest
    ∧ dump_body (replicate 16 x00%byte ++ [xff]%byte)
        (Z.of_nat (length (replicate 16 x00%byte ++ [xff]%byte)))
      = Some (text_front +:+ text_rest).
Proof.
  apply (dump_body_rows_concatenate (replicate 16 x00%byte) [xff]%byte). reflexivity.
Defined.

Example dump_memory_runs :
  dump_memory "b" [x01; x00; x00; x00; xff]%byte 5
  = Some (NL +:+ "Memory dump (b):" +:+ NL +:+ "01 00 00 00 ff " +:+ NL).
Proof. vm_compute. reflexivity. Qed.

(** ** [print_stack_trace] *)

Lemma trace_loop_granted (names : list string) (n : nat) :
  ∀ i : nat,
  (i + n ≤ length names)%nat →
  trace_loop n (Z.of_nat i) (Some names) = Some (file_text (take n (drop i names))).
Proof.
  induction n as [|n IH]; intros i Hle; [done|].
  cbn [trace_loop]. rewrite Nat2Z.id.
  replace (Z.of_nat i + 1) with (Z.of_nat (S i)) by lia.
  destruct (lookup_lt_is_Some_2 names i) as [name Hname]; [lia|].
  rewrite Hname, IH by lia.
  rewrite (drop_S _ _ _ Hname). done.
Qed.

(** X5: [print_stack_trace] prints its header and then the innermost frames,
    one per line and never more than ten; when [backtrace_symbols] returns
    NULL the result is used all the same, which is not defined as soon as one
    frame was captured. *)
Theorem print_stack_trace_at_most_ten (frames : list string) :
  print_stack_trace frames true
  = Some (NL +:+ "Stack trace:" +:+ NL +:+ file_text (take 10 frames))
  ∧ (print_stack_trace frames false = None ↔ frames ≠ []).
Proof.
  unfold print_stack_trace. split.
  - set (size := Z.to_nat (Z.min (Z.of_nat (length frames)) 10)).
    change 0 with (Z.of_nat 0).
    rewrite trace_loop_granted.
    + rewrite drop_0, take_take.
      replace (size `min` size)%nat with size by lia.
      destruct (decide (length frames ≤ 10)%nat) as [Hshort|Hlong].
      * rewrite (take_ge frames 10) by lia.
        rewrite take_ge by (subst size; lia). done.
      * replace size with 10%nat by (subst size; lia). done.
    + cbn [Nat.add]. rewrite length_take. lia.
  - destruct frames as [|frame frames].
    + cbn. split; [done|]. by intros [].
    + split; [done|]. intros _.
      assert (Hsize : ∃ n, Z.to_nat (Z.min (Z.of_nat (length (frame :: frames))) 10) = S n).
      { exists (Nat.pred (Z.to_nat (Z.min (Z.of_nat (length (frame :: frames))) 10))).
        cbn [length]. lia. }
      destruct Hsize as [n ->]. done.
Qed.

Example print_stack_trace_runs :
  print_stack_trace ["print_stack_trace"; "handler"; "main"] true
  = Some (NL +:+ "Stack trace:" +:+ NL +:+ "print_stack_trace" +:+ NL +:+ "handler" +:+ NL
          +:+ "main" +:+ NL)
  ∧ String.length <$> print_stack_trace (replicate 12 "f") true = Some 34%nat.
Proof. vm_compute. split; reflexivity. Qed.

(** ** What one call does to the state *)

(** The state a call that returns leaves. *)
Lemma run_call_returns_inv (c : call) (s s' : State) :
  store_ok (logger s) → run_call c s = Returns tt s' →
  match c with
  | Call_add_log_entry m =>
      growth_refused s = false ∧ s' = appended m s
  | Call_free_log_entries =>
      s' = mk_State (mk_Logger (logging_enabled (logger s)) (min_log_level (logger s))
                       (start_time (logger s)) [] 0 0) (world s)
  | Call_log_message level file line func text =>
      if gate_open level (logger s)
      then growth_refused s = false
           ∧ s' = appended (kept_line level file line func text (world s))
                    (show (shown_line level file line func text (world s)) s)
      else s' = s
  | Call_log_performance (Some label) =>
      if armed (logger s)
      then s' = show (Metrics label
                  (tv_sec (reading (clock_monotonic (world s))) - tv_sec (start_time (logger s)))
                  (tv_nsec (reading (clock_monotonic (world s))) - tv_nsec (start_time (logger s))))
                s
      else if gate_open DEBUG_LEVEL_ERROR (logger s)
      then growth_refused s = false
           ∧ s' = appended (kept_line DEBUG_LEVEL_ERROR this_file 166 "log_performance"
                              "Start time not defined." (world s))
                    (show (shown_line DEBUG_LEVEL_ERROR this_file 166 "log_performance"
                             "Start time not defined." (world s)) s)
      else s' = s
  | Call_log_performance None =>
      s' = mk_State (set_start_time (reading (clock_monotonic (world s))) (logger s)) (world s)
  | Call_set_logging_enabled enabled =>
      s' = mk_State (set_logging_enabled_field enabled (logger s)) (world s)
  | Call_set_minimum_log_level level =>
      s' = mk_State (set_min_log_level_field level (logger s)) (world s)
  | Call_save_log_file path =>
      if bool_decide (path ∈ unwritable (world s))
      then s' = mk_State (logger s)
                  (set_stderr (stderr (world s) ++ ["Failed to open log file"]) (world s))
      else s' = mk_State (logger s)
                  (set_files (<[path := file_text (stored (logger s))]> (files (world s)))
                     (world s))
  end.
Proof.
  intros Hok.
  assert (Hlog : ∀ level file line func text,
    log_message level file line func text s = Returns tt s' →
    if gate_open level (logger s)
    then growth_refused s = false
         ∧ s' = appended (kept_line level file line func text (world s))
                  (show (shown_line level file line func text (world s)) s)
    else s' = s).
  { intros level file line func text.
    destruct (gate_open level (logger s)) eqn:Hgate.
    - rewrite log_message_open by done. intros Hrun.
      destruct (add_log_entry_returns (show _ s) s' _ Hok Hrun) as (Hg & _ & ->). done.
    - rewrite log_message_closed by done. by intros [= <-]. }
  destruct c as [m| |level file line func text|[label|]|b|l|path]; cbn [run_call].
  - intros Hrun. destruct (add_log_entry_returns s s' m Hok Hrun) as (Hg & _ & ->). done.
  - rewrite free_log_entries_run by done. by intros [= <-].
  - apply Hlog.
  - destruct (armed (logger s)) eqn:Harmed.
    + rewrite log_performance_report_armed by done. by intros [= <-].
    + rewrite log_performance_report_unarmed by done. apply Hlog.
  - rewrite log_performance_arm. by intros [= <-].
  - by intros [= <-].
  - by intros [= <-].
  - destruct (bool_decide (path ∈ unwritable (world s))) eqn:Hpath.
    + apply bool_decide_eq_true_1 in Hpath.
      rewrite save_log_file_refused by done. by intros [= <-].
    + apply bool_decide_eq_false_1 in Hpath.
      rewrite save_log_file_opened by done. by intros [= <-].
Qed.

(** The state a call that ends the process leaves. *)
Lemma run_call_exits_inv (c : call) (s s' : State) (status : Z) :
  store_ok (logger s) → run_call c s = Exits status s' →
  may_append c = true
  ∧ status = EXIT_FAILURE
  ∧ (growth_refused s = true ∨ duplication_refused s = true)
  ∧ stored (logger s') = stored (logger s)
  ∧ log_count (logger s') = log_count (logger s)
  ∧ (∃ msg, stderr (world s') = stderr (world s) ++ [msg]
       ∧ (msg = "Failed to allocate memory for log entries"
          ∨ msg = "Failed to allocate memory for log message"))
  ∧ files (world s') = files (world s)
  ∧ (stdout (world s') = stdout (world s)
     ∨ may_print c = true ∧ ∃ text, stdout (world s') = stdout (world s) ++ [LogLine text]).
Proof.
  intros Hok.
  assert (Hadd : ∀ m (s0 : State),
    logger s0 = logger s → heap (world s0) = heap (world s) →
    stderr (world s0) = stderr (world s) → files (world s0) = files (world s) →
    add_log_entry m s0 = Exits status s' →
    status = EXIT_FAILURE
    ∧ (growth_refused s = true ∨ duplication_refused s = true)
    ∧ stored (logger s') = stored (logger s)
    ∧ log_count (logger s') = log_count (logger s)
    ∧ (∃ msg, stderr (world s') = stderr (world s) ++ [msg]
         ∧ (msg = "Failed to allocate memory for log entries"
            ∨ msg = "Failed to allocate memory for log message"))
    ∧ files (world s') = files (world s)
    ∧ stdout (world s') = stdout (world s0)).
  { intros m s0 Hlg Hheap Herr0 Hfiles0 Hrun.
    assert (Hok0 : store_ok (logger s0)) by (by rewrite Hlg).
    assert (Hg0 : growth_refused s0 = growth_refused s).
    { unfold growth_refused, heap_answer. by rewrite Hlg, Hheap. }
    assert (Hd0 : duplication_refused s0 = duplication_refused s).
    { unfold duplication_refused, heap_answer. by rewrite Hlg, Hheap. }
    destruct (growth_refused s0) eqn:Hg.
    { destruct (add_log_entry_growth_refused s0 m Hok0 Hg)
        as (x & Hx & Hlgx & Hout & Herr & Hfiles).
      rewrite Hx in Hrun. injection Hrun as <- <-.
      rewrite Hlgx, Hlg, Herr, Herr0, Hfiles, Hfiles0.
      repeat split; try done; [by left|]. eexists. split; [done|]. by left. }
    destruct (duplication_refused s0) eqn:Hd.
    { destruct (add_log_entry_duplication_refused s0 m Hok0 Hg Hd)
        as (x & Hx & Hst & Hn & Hout & Herr & Hfiles).
      rewrite Hx in Hrun. injection Hrun as <- <-.
      rewrite Hst, Hn, Hlg, Herr, Herr0, Hfiles, Hfiles0.
      repeat split; try done; [by right|]. eexists. split; [done|]. by right. }
    rewrite add_log_entry_granted in Hrun by done. done. }
  assert (Hlog : ∀ level file line func text,
    log_message level file line func text s = Exits status s' →
    status = EXIT_FAILURE
    ∧ (growth_refused s = true ∨ duplication_refused s = true)
    ∧ stored (logger s') = stored (logger s)
    ∧ log_count (logger s') = log_count (logger s)
    ∧ (∃ msg, stderr (world s') = stderr (world s) ++ [msg]
         ∧ (msg = "Failed to allocate memory for log entries"
            ∨ msg = "Failed to allocate memory for log message"))
    ∧ files (world s') = files (world s)
    ∧ ∃ text, stdout (world s') = stdout (world s) ++ [LogLine text]).
  { intros level file line func text.
    destruct (gate_open level (logger s)) eqn:Hgate.
    - rewrite log_message_open by done. intros Hrun.
      destruct (Hadd _ (show (shown_line level file line func text (world s)) s)
                  eq_refl eq_refl eq_refl eq_refl Hrun)
        as (H1 & H2 & H3 & H4 & H5 & H6 & H7).
      repeat split; try done. eexists. exact H7.
    - by rewrite log_message_closed. }
  destruct c as [m| |level file line func text|[label|]|b|l|path];
    cbn [run_call may_append may_print].
  - intros Hrun.
    destruct (Hadd m s eq_refl eq_refl eq_refl eq_refl Hrun)
      as (H1 & H2 & H3 & H4 & H5 & H6 & H7).
    repeat split; try done. by left.
  - by rewrite free_log_entries_run.
  - intros Hrun. destruct (Hlog _ _ _ _ _ Hrun) as (H1 & H2 & H3 & H4 & H5 & H6 & H7).
    repeat split; try done. by right.
  - destruct (armed (logger s)) eqn:Harmed.
    + by rewrite log_performance_report_armed.
    + rewrite log_performance_report_unarmed by done. intros Hrun.
      destruct (Hlog _ _ _ _ _ Hrun) as (H1 & H2 & H3 & H4 & H5 & H6 & H7).
      repeat split; try done. by right.
  - by rewrite log_performance_arm.
  - done.
  - done.
  - destruct (decide (path ∈ unwritable (world s))) as [Hin|Hout].
    + by rewrite save_log_file_refused.
    + by rewrite save_log_file_opened.
Qed.

(** ** The store over the calls of a program *)

(** X6: the store is append-only.  A call that returns leaves the stored
    texts as they were, or puts one text behind them, or, for
    [free_log_entries] alone, removes them all; no call reorders, changes or
    removes single entries. *)
Theorem store_is_append_only (c : call) (s s' : State) :
  reachable s → run_call c s = Returns tt s' →
  (stored (logger s') = stored (logger s)
   ∨ (may_append c = true ∧ ∃ m, stored (logger s') = stored (logger s) ++ [m])
   ∨ (c = Call_free_log_entries ∧ stored (logger s') = []))
  ∧ (c ≠ Call_free_log_entries → stored (logger s) `prefix_of` stored (logger s')).
Proof.
  intros Hreach Hrun. pose proof (reachable_store_ok s Hreach) as Hok.
  pose proof (run_call_returns_inv c s s' Hok Hrun) as Hinv.
  assert (Happ : ∀ m (s0 : State), logger s0 = logger s → growth_refused s = false →
            growth_refused s0 = growth_refused s →
            stored (logger (appended m s0)) = stored (logger s) ++ [m]).
  { intros m s0 Hlg Hg Hg0. rewrite <- Hlg. apply appended_ok; [by rewrite Hlg|congruence]. }
  assert (Hcases :
    stored (logger s') = stored (logger s)
    ∨ (may_append c = true ∧ ∃ m, stored (logger s') = stored (logger s) ++ [m])
    ∨ (c = Call_free_log_entries ∧ stored (logger s') = [])).
  { destruct c as [m| |level file line func text|[label|]|b|l|path]; cbn [may_append] in *.
    - destruct Hinv as [Hg ->]. right. left. split; [done|]. exists m. by apply Happ.
    - right. right. by subst s'.
    - destruct (gate_open level (logger s)).
      + destruct Hinv as [Hg ->]. right. left. split; [done|]. eexists. by apply Happ.
      + left. by subst s'.
    - destruct (armed (logger s)); [left; by subst s'|].
      destruct (gate_open DEBUG_LEVEL_ERROR (logger s)).
      + destruct Hinv as [Hg ->]. right. left. split; [done|]. eexists. by apply Happ.
      + left. by subst s'.
    - left. by subst s'.
    - left. by subst s'.
    - left. by subst s'.
    - left. destruct (bool_decide _); by subst s'. }
  split; [done|]. intros Hfree.
  destruct Hcases as [-> | [(_ & m & ->) | [? _]]]; [done| |done].
  by apply prefix_app_r.
Qed.

Lemma store_is_append_only_witness :
  (stored (logger (appended "B" (appended "A" initial_state)))
   = stored (logger (appended "A" initial_state))
   ∨ (may_append (Call_add_log_entry "B") = true
      ∧ ∃ m, stored (logger (appended "B" (appended "A" initial_state)))
             = stored (logger (appended "A" initial_state)) ++ [m])
   ∨ (Call_add_log_entry "B" = Call_free_log_entries
      ∧ stored (logger (appended "B" (appended "A" initial_state))) = []))
  ∧ (Call_add_log_entry "B" ≠ Call_free_log_entries →
     stored (logger (appended "A" initial_state))
     `prefix_of` stored (logger (appended "B" (appended "A" initial_state)))).
Proof.
  apply (store_is_append_only (Call_add_log_entry "B") (appended "A" initial_state)).
  - apply (reachable_call (Call_add_log_entry "A") initial_state).
    + apply reachable_start.
    + reflexivity.
  - reflexivity.
Defined.

(** Capacity and count change in three ways only. *)
Lemma reachable_capacity_count (P : Z → Z → Prop) :
  P 0 0 →
  (∀ cap count, P cap count → 0 ≤ count < cap → P cap (count + 1)) →
  (∀ cap, P cap cap → 0 ≤ cap → (if cap =? 0 then 16 else 2 * cap) * 8 ≤ PTRDIFF_MAX →
          P (if cap =? 0 then 16 else 2 * cap) (cap + 1)) →
  ∀ s, reachable s → P (log_capacity (logger s)) (log_count (logger s)).
Proof.
  intros Hstart Hroom Hgrow s Hreach.
  induction Hreach as [w|lg w w' _ IH|c s s' Hreach IH Hrun]; [done|done|].
  pose proof (reachable_store_ok s Hreach) as Hok.
  pose proof (run_call_returns_inv c s s' Hok Hrun) as Hinv.
  assert (Happ : ∀ m (s0 : State), logger s0 = logger s → heap (world s0) = heap (world s) →
            growth_refused s = false →
            P (log_capacity (logger (appended m s0))) (log_count (logger (appended m s0)))).
  { intros m s0 Hlg Hheap Hg. unfold appended. fields. rewrite Hlg.
    unfold growth_refused, must_grow, grown_capacity in *.
    pose proof (count_le_capacity _ Hok) as Hle.
    destruct (log_count (logger s) =? log_capacity (logger s)) eqn:Hfull.
    - apply Z.eqb_eq in Hfull. rewrite Hfull in *.
      cbn [andb] in Hg. apply orb_false_elim in Hg as [Hsz _]. apply Z.ltb_ge in Hsz.
      apply Hgrow; [done|lia|done].
    - apply Z.eqb_neq in Hfull. apply Hroom; [done|lia]. }
  destruct c as [m| |level file line func text|[label|]|b|l|path].
  - destruct Hinv as [Hg ->]. by apply Happ.
  - by subst s'.
  - destruct (gate_open level (logger s)).
    + destruct Hinv as [Hg ->]. by apply Happ.
    + by subst s'.
  - destruct (armed (logger s)); [by subst s'|].
    destruct (gate_open DEBUG_LEVEL_ERROR (logger s)).
    + destruct Hinv as [Hg ->]. by apply Happ.
    + by subst s'.
  - by subst s'.
  - by subst s'.
  - by subst s'.
  - destruct (bool_decide _); by subst s'.
Qed.

(** X7: the capacity is always 0 or 16 doubled some number of times, it never
    exceeds [2 ^ 59] slots, and beyond the first sixteen slots it is less
    than twice the count: at most half of the block is unused. *)
Theorem capacity_is_16_doubled (s : State) :
  reachable s →
  (log_capacity (logger s) = 0 ∨ ∃ k : nat, log_capacity (logger s) = 16 * 2 ^ Z.of_nat k)
  ∧ log_capacity (logger s) ≤ 2 ^ 59
  ∧ log_capacity (logger s) ≤ Z.max 16 (2 * log_count (logger s)).
Proof.
  intros Hreach.
  apply (reachable_capacity_count
    (λ cap count, (cap = 0 ∨ ∃ k : nat, cap = 16 * 2 ^ Z.of_nat k)
                  ∧ cap ≤ 2 ^ 59 ∧ cap ≤ Z.max 16 (2 * count))); [| | |done].
  - split; [by left|]. lia.
  - intros cap count (Hshape & Hmax & Hslack) Hcount. split; [done|]. lia.
  - intros cap (Hshape & Hmax & Hslack) Hcap Hsize.
    destruct (cap =? 0) eqn:Hzero.
    + split; [right; by exists 0%nat|]. lia.
    + apply Z.eqb_neq in Hzero. destruct Hshape as [?|[k Hk]]; [done|].
      split; [|split].
      * right. exists (S k). rewrite Nat2Z.inj_succ, Z.pow_succ_r by lia. lia.
      * assert (Hk56 : (k < 55)%nat).
        { destruct (decide (k < 55)%nat) as [|Hbig]; [done|].
          assert (2 ^ 55 ≤ 2 ^ Z.of_nat k) by (apply Z.pow_le_mono_r; lia).
          unfold PTRDIFF_MAX in Hsize. lia. }
        assert (2 ^ Z.of_nat k ≤ 2 ^ 54) by (apply Z.pow_le_mono_r; lia).
        lia.
      * lia.
Qed.

Lemma capacity_is_16_doubled_witness :
  (log_capacity (logger (appended "A" initial_state)) = 0
   ∨ ∃ k : nat, log_capacity (logger (appended "A" initial_state)) = 16 * 2 ^ Z.of_nat k)
  ∧ log_capacity (logger (appended "A" initial_state)) ≤ 2 ^ 59
  ∧ log_capacity (logger (appended "A" initial_state))
    ≤ Z.max 16 (2 * log_count (logger (appended "A" initial_state))).
Proof.
  apply (capacity_is_16_doubled (appended "A" initial_state)).
  apply (reachable_call (Call_add_log_entry "A") initial_state).
  - apply reachable_start.
  - reflexivity.
Defined.

(** X8: only a refused allocation ends the process.  A call from a reachable
    state that ends in [exit] is one that appends, the allocator has refused
    the growth of the block or the copy of the text, the status is
    [EXIT_FAILURE], one of the two messages has gone to the error stream, and
    the stored texts and all files are as they were; [save_log_file],
    [free_log_entries], both setters and arming the timer never end the
    process. *)
Theorem only_a_refused_allocation_exits (c : call) (s s' : State) (status : Z) :
  reachable s → run_call c s = Exits status s' →
  may_append c = true
  ∧ status = EXIT_FAILURE
  ∧ (growth_refused s = true ∨ duplication_refused s = true)
  ∧ stored (logger s') = stored (logger s)
  ∧ log_count (logger s') = log_count (logger s)
  ∧ (∃ msg, stderr (world s') = stderr (world s) ++ [msg]
       ∧ (msg = "Failed to allocate memory for log entries"
          ∨ msg = "Failed to allocate memory for log message"))
  ∧ files (world s') = files (world s).
Proof.
  intros Hreach Hrun. pose proof (reachable_store_ok s Hreach) as Hok.
  destruct (run_call_exits_inv c s s' status Hok Hrun)
    as (H1 & H2 & H3 & H4 & H5 & H6 & H7 & _).
  done.
Qed.

Lemma only_a_refused_allocation_exits_witness :
  may_append (Call_add_log_entry "A") = true
  ∧ EXIT_FAILURE = EXIT_FAILURE
  ∧ (growth_refused state_heap_exhausted = true
     ∨ duplication_refused state_heap_exhausted = true)
  ∧ stored (logger state_after_refusal) = stored (logger state_heap_exhausted)
  ∧ log_count (logger state_after_refusal) = log_count (logger state_heap_exhausted)
  ∧ (∃ msg, stderr (world state_after_refusal)
            = stderr (world state_heap_exhausted) ++ [msg]
       ∧ (msg = "Failed to allocate memory for log entries"
          ∨ msg = "Failed to allocate memory for log message"))
  ∧ files (world state_after_refusal) = files (world state_heap_exhausted).
Proof.
  apply (only_a_refused_allocation_exits (Call_add_log_entry "A") state_heap_exhausted
           state_after_refusal EXIT_FAILURE).
  - apply reachable_start.
  - vm_compute. reflexivity.
Defined.



(** ** Clear and flush *)

(** X10: [free_log_entries] in a reachable state returns and leaves an empty
    store of capacity 0; the gate, the timer and the environment are as they
    were.  A flush that follows writes an empty file, and an append that
    follows starts again with a block of sixteen slots that holds just the
    new text. *)
Theorem clear_empties_the_store (s : State) :
  reachable s →
  ∃ s1, free_log_entries s = Returns tt s1
    ∧ stored (logger s1) = [] ∧ log_entries (logger s1) = []
    ∧ log_count (logger s1) = 0 ∧ log_capacity (logger s1) = 0
    ∧ logging_enabled (logger s1) = logging_enabled (logger s)
    ∧ min_log_level (logger s1) = min_log_level (logger s)
    ∧ start_time (logger s1) = start_time (logger s)
    ∧ world s1 = world s
    ∧ (∀ path, path ∉ unwritable (world s1) →
         ∃ s2, save_log_file path s1 = Returns tt s2 ∧ files (world s2) !! path = Some "")
    ∧ (∀ m s2, add_log_entry m s1 = Returns tt s2 →
         stored (logger s2) = [m] ∧ log_capacity (logger s2) = 16
         ∧ length (log_entries (logger s2)) = 16%nat).
Proof.
  intros Hreach. pose proof (reachable_store_ok s Hreach) as Hok.
  eexists. split; [by apply free_log_entries_run|]. fields.
  repeat (split; [done|]).
  set (s1 := mk_State _ (world s)).
  assert (Hok1 : store_ok (logger s1)).
  { split; cbn; unfold sizeof_LogEntry, PTRDIFF_MAX; done. }
  split.
  - intros path Hpath. eexists. split; [by apply save_log_file_opened|].
    fields. by rewrite lookup_insert_eq.
  - intros m s2 Hrun.
    destruct (add_log_entry_returns s1 s2 m Hok1 Hrun) as (Hg & _ & ->).
    split; [by apply (appended_ok s1 m Hok1 Hg)|]. split; [done|].
    unfold appended. cbn. done.
Qed.

Lemma clear_empties_the_store_witness :
  ∃ s1, free_log_entries (appended "A" initial_state) = Returns tt s1
    ∧ stored (logger s1) = [] ∧ log_entries (logger s1) = []
    ∧ log_count (logger s1) = 0 ∧ log_capacity (logger s1) = 0
    ∧ logging_enabled (logger s1) = logging_enabled (logger (appended "A" initial_state))
    ∧ min_log_level (logger s1) = min_log_level (logger (appended "A" initial_state))
    ∧ start_time (logger s1) = start_time (logger (appended "A" initial_state))
    ∧ world s1 = world (appended "A" initial_state)
    ∧ (∀ path, path ∉ unwritable (world s1) →
         ∃ s2, save_log_file path s1 = Returns tt s2 ∧ files (world s2) !! path = Some "")
    ∧ (∀ m s2, add_log_entry m s1 = Returns tt s2 →
         stored (logger s2) = [m] ∧ log_capacity (logger s2) = 16
         ∧ length (log_entries (logger s2)) = 16%nat).
Proof.
  apply (clear_empties_the_store (appended "A" initial_state)).
  apply (reachable_call (Call_add_log_entry "A") initial_state).
  - apply reachable_start.
  - reflexivity.
Defined.



(** ** What [log_message] keeps *)

(** X12: a log call that passes the gate and returns stores one text of at
    most 1023 characters, a front part of the plain line built from at most
    the first 511 characters of the message; what it shows carries the same
    cut message. *)
Theorem stored_line_is_bounded (s s' : State) (level : DebugLevel) (file : string)
    (line : Z) (func text : string) :
  reachable s → gate_open level (logger s) = true →
  log_message level file line func text s = Returns tt s' →
  ∃ kept body rest,
    stored (logger s') = stored (logger s) ++ [kept]
    ∧ (String.length kept ≤ 1023)%nat
    ∧ (String.length body ≤ 511)%nat
    ∧ (∃ cut, text = body +:+ cut)
    ∧ plain_line (local_time (world s)) (level_style level).1 file line func body
      = kept +:+ rest
    ∧ stdout (world s')
      = stdout (world s)
        ++ [LogLine (display_line (local_time (world s)) (level_style level).2
                       (level_style level).1 file line func body)].
Proof.
  intros Hreach Hgate Hrun. pose proof (reachable_store_ok s Hreach) as Hok.
  pose proof (run_call_returns_inv (Call_log_message level file line func text) s s' Hok Hrun)
    as Hinv. cbn beta iota in Hinv. rewrite Hgate in Hinv. destruct Hinv as [Hg ->].
  set (body := snprintf 512 text).
  destruct (substring_0_prefix 1023
              (plain_line (local_time (world s)) (level_style level).1 file line func body))
    as [rest Hrest].
  exists (kept_line level file line func text (world s)), body, rest.
  split; [by apply (appended_ok (show _ s))|].
  split; [unfold kept_line, snprintf; rewrite substring_0_length; lia|].
  split; [unfold body, snprintf; rewrite substring_0_length; lia|].
  split; [apply (substring_0_prefix 511)|].
  split; [exact Hrest|]. done.
Qed.

Lemma stored_line_is_bounded_witness :
  ∃ kept body rest,
    stored (logger (appended (kept_line DEBUG_LEVEL_ERROR "main.c" 42 "main" "disk full"
                                initial_world)
                      (show (shown_line DEBUG_LEVEL_ERROR "main.c" 42 "main" "disk full"
                               initial_world) state_ERROR)))
    = stored (logger state_ERROR) ++ [kept]
    ∧ (String.length kept ≤ 1023)%nat
    ∧ (String.length body ≤ 511)%nat
    ∧ (∃ cut, "disk full" = body +:+ cut)
    ∧ plain_line (local_time (world state_ERROR)) (level_style DEBUG_LEVEL_ERROR).1
        "main.c" 42 "main" body
      = kept +:+ rest
    ∧ stdout (world (appended (kept_line DEBUG_LEVEL_ERROR "main.c" 42 "main" "disk full"
                                 initial_world)
                       (show (shown_line DEBUG_LEVEL_ERROR "main.c" 42 "main" "disk full"
                                initial_world) state_ERROR)))
      = stdout (world state_ERROR)
        ++ [LogLine (display_line (local_time (world state_ERROR))
                       (level_style DEBUG_LEVEL_ERROR).2 (level_style DEBUG_LEVEL_ERROR).1
                       "main.c" 42 "main" body)].
Proof.
  apply (stored_line_is_bounded state_ERROR _ DEBUG_LEVEL_ERROR "main.c" 42 "main" "disk full").
  - exact reachable_state_ERROR.
  - reflexivity.
  - vm_compute. reflexivity.
Defined.

(** A message of 600 characters is cut to 511 in both lines. *)
Example long_message_is_cut :
  (λ s, (String.length <$> stored (logger s),
         (λ d, match d with LogLine t => String.length t | Metrics _ _ _ => 0%nat end)
           <$> stdout (world s)))
    <$> final_state (log_message DEBUG_LEVEL_INFO "a.c" 1 "f"
                       (String.concat "" (replicate 600 "x")) initial_state)
  = Some ([(String.length "[2025-01-01 00:00:00] INFO [a.c:1] f: " + 511)%nat],
          [(String.length "[2025-01-01 00:00:00] INFO [a.c:1] f: " + 9 + 511 + 1)%nat]).
Proof. vm_compute. reflexivity. Qed.

(** X13: nothing is lost below the buffer sizes: when the message has at most
    511 characters and the plain line at most 1023, a log call that passes
    the gate and returns stores the plain line whole and shows the line with
    the whole message. *)
Theorem short_line_is_stored_whole (s s' : State) (level : DebugLevel) (file : string)
    (line : Z) (func text : string) :
  reachable s → gate_open level (logger s) = true →
  (String.length text ≤ 511)%nat →
  (String.length (plain_line (local_time (world s)) (level_style level).1 file line func text)
   ≤ 1023)%nat →
  log_message level file line func text s = Returns tt s' →
  stored (logger s')
  = stored (logger s)
    ++ [plain_line (local_time (world s)) (level_style level).1 file line func text]
  ∧ stdout (world s')
    = stdout (world s)
      ++ [LogLine (display_line (local_time (world s)) (level_style level).2
                     (level_style level).1 file line func text)].
Proof.
  intros Hreach Hgate Htext Hline Hrun. pose proof (reachable_store_ok s Hreach) as Hok.
  pose proof (run_call_returns_inv (Call_log_message level file line func text) s s' Hok Hrun)
    as Hinv. cbn beta iota in Hinv. rewrite Hgate in Hinv. destruct Hinv as [Hg ->].
  assert (Hbody : snprintf 512 text = text).
  { unfold snprintf. by apply substring_0_all. }
  assert (Hkept : kept_line level file line func text (world s)
                  = plain_line (local_time (world s)) (level_style level).1 file line func text).
  { unfold kept_line. rewrite Hbody. unfold snprintf. by apply substring_0_all. }
  split.
  - rewrite <- Hkept. by apply (appended_ok (show _ s)).
  - cbn. unfold shown_line. by rewrite Hbody.
Qed.

Lemma short_line_is_stored_whole_witness :
  stored (logger (appended (kept_line DEBUG_LEVEL_ERROR "main.c" 42 "main" "disk full"
                              initial_world)
                    (show (shown_line DEBUG_LEVEL_ERROR "main.c" 42 "main" "disk full"
                             initial_world) state_ERROR)))
  = stored (logger state_ERROR)
    ++ [plain_line (local_time (world state_ERROR)) (level_style DEBUG_LEVEL_ERROR).1
          "main.c" 42 "main" "disk full"]
  ∧ stdout (world (appended (kept_line DEBUG_LEVEL_ERROR "main.c" 42 "main" "disk full"
                               initial_world)
                     (show (shown_line DEBUG_LEVEL_ERROR "main.c" 42 "main" "disk full"
                              initial_world) state_ERROR)))
    = stdout (world state_ERROR)
      ++ [LogLine (display_line (local_time (world state_ERROR))
                     (level_style DEBUG_LEVEL_ERROR).2 (level_style DEBUG_LEVEL_ERROR).1
                     "main.c" 42 "main" "disk full")].
Proof.
  apply (short_line_is_stored_whole state_ERROR _ DEBUG_LEVEL_ERROR "main.c" 42 "main"
           "disk full").
  - exact reachable_state_ERROR.
  - reflexivity.
  - vm_compute. lia.
  - vm_compute. lia.
  - vm_compute. reflexivity.
Defined.

(** ** The gate in general *)

(** X14: the setters take effect at once and the gate compares levels in the
    order INFO < WARNING < ERROR < CRITICAL.  After the flag and the minimum
    level have been set, a log call shows its line exactly when the flag is
    on and its level is at least the minimum; otherwise it returns with
    nothing shown and nothing stored. *)
Theorem gate_follows_the_setters (s : State) (enabled : bool) (minimum level : DebugLevel)
    (file : string) (line : Z) (func text : string) :
  reachable s →
  if enabled && (enum_value minimum <=? enum_value level)
  then ∃ s', final_state ((set_logging_enabled enabled ;; set_minimum_log_level minimum ;;
                           log_message level file line func text) s) = Some s'
         ∧ stdout (world s')
           = stdout (world s) ++ [shown_line level file line func text (world s)]
  else ∃ s', (set_logging_enabled enabled ;; set_minimum_log_level minimum ;;
              log_message level file line func text) s = Returns tt s'
         ∧ stdout (world s') = stdout (world s)
         ∧ stored (logger s') = stored (logger s)
         ∧ log_count (logger s') = log_count (logger s).
Proof.
  intros Hreach. pose proof (reachable_store_ok s Hreach) as Hok.
  set (s1 := mk_State (set_min_log_level_field minimum
                         (set_logging_enabled_field enabled (logger s))) (world s)).
  assert (Hrun : (set_logging_enabled enabled ;; set_minimum_log_level minimum ;;
                  log_message level file line func text) s
                 = log_message level file line func text s1) by done.
  rewrite Hrun.
  assert (Hok1 : store_ok (logger s1)) by (by apply (store_ok_same_store (logger s))).
  assert (Hgate : gate_open level (logger s1)
                  = enabled && (enum_value minimum <=? enum_value level)).
  { unfold gate_open. cbn. f_equal.
    destruct (enum_value level <? enum_value minimum) eqn:Hlt;
      [apply Z.ltb_lt in Hlt|apply Z.ltb_ge in Hlt]; symmetry;
      [apply Z.leb_gt|apply Z.leb_le]; done. }
  rewrite <- Hgate. destruct (gate_open level (logger s1)) eqn:Hopen.
  - destruct (log_message_open_ends level file line func text s1 Hok1 Hopen)
      as (s' & Hfin & Hout & _).
    by exists s'.
  - rewrite log_message_closed by done. by exists s1.
Qed.

(** Which of the sixteen pairs of minimum level and level show a line. *)
Example gate_table :
  (λ minimum,
     (λ level, (λ s, length (stdout (world s)))
         <$> final_state ((set_minimum_log_level minimum ;;
                           log_message level "main.c" 7 "main" "m") initial_state))
       <$> [DEBUG_LEVEL_INFO; DEBUG_LEVEL_WARNING; DEBUG_LEVEL_ERROR; DEBUG_LEVEL_CRITICAL])
    <$> [DEBUG_LEVEL_INFO; DEBUG_LEVEL_WARNING; DEBUG_LEVEL_ERROR; DEBUG_LEVEL_CRITICAL]
  = [[Some 1; Some 1; Some 1; Some 1]; [Some 0; Some 1; Some 1; Some 1];
     [Some 0; Some 0; Some 1; Some 1]; [Some 0; Some 0; Some 0; Some 1]]%nat.
Proof. vm_compute. reflexivity. Qed.

Lemma gate_follows_the_setters_witness :
  ∃ s', (set_logging_enabled true ;; set_minimum_log_level DEBUG_LEVEL_CRITICAL ;;
         log_message DEBUG_LEVEL_ERROR "main.c" 7 "main" "m") initial_state = Returns tt s'
    ∧ stdout (world s') = stdout (world initial_state)
    ∧ stored (logger s') = stored (logger initial_state)
    ∧ log_count (logger s') = log_count (logger initial_state).
Proof.
  apply (gate_follows_the_setters initial_state true DEBUG_LEVEL_CRITICAL DEBUG_LEVEL_ERROR
           "main.c" 7 "main" "m").
  apply reachable_start.
Defined.

(** ** The timer *)



(** ** Programs *)




(** Four calls at minimum level ERROR: two pass, and the file holds their two
    lines. *)
Example log_calls_runs :
  (λ s, (log_count (logger s), length (stdout (world s)), files (world s) !! "P"))
    <$> final_state
          ((log_messages
              [mk_log_args DEBUG_LEVEL_INFO "m.c" 1 "f" "a";
               mk_log_args DEBUG_LEVEL_ERROR "m.c" 2 "f" "b";
               mk_log_args DEBUG_LEVEL_WARNING "m.c" 3 "f" "c";
               mk_log_args DEBUG_LEVEL_CRITICAL "m.c" 4 "f" "d"] ;;
            save_log_file "P") state_ERROR)
  = Some (2, 2%nat,
          Some ("[2025-01-01 00:00:00] ERROR [m.c:2] f: b" +:+ NL
                +:+ "[2025-01-01 00:00:00] CRITICAL [m.c:4] f: d" +:+ NL)).
Proof. vm_compute. reflexivity. Qed.

Lemma reachable_run_calls (calls : list call) :
  ∀ s s' : State, reachable s → run_calls calls s = Returns tt s' → reachable s'.
Proof.
  induction calls as [|c calls IH]; intros s s' Hreach Hrun.
  - cbn in Hrun. by injection Hrun as <-.
  - cbn [run_calls] in Hrun. unfold bind in Hrun.
    destruct (run_call c s) as [[] s1| |] eqn:Hone; try done.
    apply (IH s1 s'); [|done]. exact (reachable_call c s s1 Hreach Hone).
Qed.

(** X17: no program leaves what C defines.  Whatever calls a program makes,
    in whatever environment it starts, the run never reads or writes outside
    the block of entries, never reads a slot that holds no string and never
    asks [realloc] for zero bytes: it returns or ends in [exit]. *)
Theorem programs_stay_defined (calls : list call) (w : World) :
  run_calls calls (mk_State initial_logger w) ≠ Undefined.
Proof.
  assert (Hmain : ∀ s, reachable s → run_calls calls s ≠ Undefined).
  { induction calls as [|c calls IH]; intros s Hreach; [done|].
    cbn [run_calls]. unfold bind.
    destruct (run_call c s) as [[] s1| |] eqn:Hone; [|done|].
    - apply IH. exact (reachable_call c s s1 Hreach Hone).
    - by destruct (run_call_defined c s Hreach). }
  apply Hmain, reachable_start.
Qed.

(** X18: appends cannot fail for any other reason than a refused allocation:
    with an allocator that grants every request, any row of appends that
    keeps the store at no more than [2 ^ 59] entries returns, and the store
    then holds the old texts followed by the new ones. *)
Theorem appends_return_when_granted (s : State) (texts : list string) :
  reachable s → heap (world s) = [] →
  log_count (logger s) + Z.of_nat (length texts) ≤ 2 ^ 59 →
  ∃ s', add_log_entries texts s = Returns tt s'
    ∧ stored (logger s') = stored (logger s) ++ texts
    ∧ log_count (logger s') = log_count (logger s) + Z.of_nat (length texts).
Proof.
  intros Hreach Hheap Hsize. pose proof (reachable_store_ok s Hreach) as Hok.
  destruct (add_log_entries_granted texts s Hok Hheap Hsize) as (s' & Hrun & _).
  destruct (add_log_entries_returns texts s s' Hok Hrun) as [Hok' Hst].
  exists s'. split; [done|]. split; [done|].
  pose proof (stored_length _ Hok) as Hlen. pose proof (stored_length _ Hok') as Hlen'.
  rewrite Hst, length_app in Hlen'.
  pose proof (count_le_capacity _ Hok). pose proof (count_le_capacity _ Hok'). lia.
Qed.

Lemma appends_return_when_granted_witness :
  ∃ s', add_log_entries ["A"; "B"; "C"] initial_state = Returns tt s'
    ∧ stored (logger s') = stored (logger initial_state) ++ ["A"; "B"; "C"]
    ∧ log_count (logger s')
      = log_count (logger initial_state) + Z.of_nat (length ["A"; "B"; "C"]).
Proof.
  apply (appends_return_when_granted initial_state ["A"; "B"; "C"]).
  - apply reachable_start.
  - reflexivity.
  - discriminate.
Defined.

(** X19: every call keeps to its variables.  When a call returns, the enabled
    flag is as it was unless the call is [set_logging_enabled], the minimum
    level is as it was unless the call is [set_minimum_log_level], the start
    time is as it was unless the call arms the timer, and the store (block,
    count and capacity) is as it was unless the call can append or is
    [free_log_entries]. *)
Theorem calls_keep_to_their_variables (c : call) (s s' : State) :
  reachable s → run_call c s = Returns tt s' →
  ((∀ enabled, c ≠ Call_set_logging_enabled enabled) →
     logging_enabled (logger s') = logging_enabled (logger s))
  ∧ ((∀ level, c ≠ Call_set_minimum_log_level level) →
     min_log_level (logger s') = min_log_level (logger s))
  ∧ (c ≠ Call_log_performance None → start_time (logger s') = start_time (logger s))
  ∧ (may_append c = false → c ≠ Call_free_log_entries →
     log_entries (logger s') = log_entries (logger s)
     ∧ log_count (logger s') = log_count (logger s)
     ∧ log_capacity (logger s') = log_capacity (logger s)).
Proof.
  intros Hreach Hrun. pose proof (reachable_store_ok s Hreach) as Hok.
  pose proof (run_call_returns_inv c s s' Hok Hrun) as Hinv.
  destruct c as [m| |level file line func text|[label|]|b|l|path]; cbn [may_append].
  - destruct Hinv as [_ ->]. done.
  - subst s'. done.
  - destruct (gate_open level (logger s)); [destruct Hinv as [_ ->]|subst s']; done.
  - destruct (armed (logger s)); [subst s'; done|].
    destruct (gate_open DEBUG_LEVEL_ERROR (logger s));
      [destruct Hinv as [_ ->]|subst s']; done.
  - subst s'. done.
  - subst s'. split; [|done]. intros Hne. by destruct (Hne b).
  - subst s'. split; [done|]. split; [|done]. intros Hne. by destruct (Hne l).
  - destruct (bool_decide _); subst s'; done.
Qed.

Lemma calls_keep_to_their_variables_witness :
  ((∀ enabled, Call_set_logging_enabled false ≠ Call_set_logging_enabled enabled) →
     logging_enabled (logger state_disabled) = logging_enabled (logger initial_state))
  ∧ ((∀ level, Call_set_logging_enabled false ≠ Call_set_minimum_log_level level) →
     min_log_level (logger state_disabled) = min_log_level (logger initial_state))
  ∧ (Call_set_logging_enabled false ≠ Call_log_performance None →
     start_time (logger state_disabled) = start_time (logger initial_state))
  ∧ (may_append (Call_set_logging_enabled false) = false →
     Call_set_logging_enabled false ≠ Call_free_log_entries →
     log_entries (logger state_disabled) = log_entries (logger initial_state)
     ∧ log_count (logger state_disabled) = log_count (logger initial_state)
     ∧ log_capacity (logger state_disabled) = log_capacity (logger initial_state)).
Proof.
  apply (calls_keep_to_their_variables (Call_set_logging_enabled false) initial_state
           state_disabled).
  - apply reachable_start.
  - reflexivity.
Defined.
